(** * The John Snow notebooks: a shallow embedding

    The repository is a set of teaching notebooks on the 1854 Soho cholera
    data (Relations, Operations, Voronoi, SpatialJoins, SpatialWeights,
    Interpolation).  Its own code is short: two helper functions in
    [Relations.ipynb] ([countBuffersContaining], [tidyBufferOverlaps]), the
    column assignments and [sjoin] calls of [SpatialJoins.ipynb], and the
    helper [plotKernel] of the spatial-weights notebook.

    - [Py]: the Python values the helpers print and pass around.
    - [Relations]: the two helpers of [Relations.ipynb].
    - [Frame]: column assignment on a loaded table.
    - [Notebook]: the coordinate reference system each table carries, cell
      by cell.
    - [Detection]: what the code tests for, and what it lets through.
    - [Weights]: [plotKernel] and its bins.
    - [Loops], [EveryLoop]: the collections the loops run over.
    - [Buffer], [Voronoi], [SpatialJoin]: what the geometry libraries hand
      back, as far as the notebooks rely on it.
    - [RelationsLoops], [Tables], [Aggregation], [KernelPlot],
      [NotebookDisk], [Operations]: further properties of the same code. *)

From Stdlib Require Import List String Ascii Bool Arith ZArith QArith Qround Qminmax Lia Lqa.
From Stdlib Require Import Decimal DecimalString DecimalNat.
From Stdlib Require Import Reals Psatz.
From Stdlib Require Sorted OrderedTypeEx Permutation.
Import ListNotations.

Local Close Scope Q_scope.
Local Open Scope string_scope.
Local Open Scope nat_scope.
Local Open Scope list_scope.

(** ** Python values shared by the notebooks *)

Module Py.

(** [str(n)] for a non-negative integer. *)
Definition str_nat (n : nat) : string :=
  NilEmpty.string_of_uint (Nat.to_uint n).

(** [str(b)] for a boolean, as [print] shows it. *)
Definition str_bool (b : bool) : string :=
  if b then "True" else "False".

(** The result of pandas' [Series.squeeze()]: a one-element Series is
    squeezed to its element, any other Series is returned as it is. *)
Inductive squeezed (A : Type) : Type :=
| Scalar (a : A)
| Series (l : list A).

Arguments Scalar {A} a.
Arguments Series {A} l.

Definition squeeze {A : Type} (l : list A) : squeezed A :=
  match l with
  | [a] => Scalar a
  | _ => Series l
  end.

(** [range(n)]. *)
Definition range (n : nat) : list nat := seq 0 n.

(** What a cell leaves on the screen.  A geometry method of shapely takes one
    geometry; the helpers hand it whatever [squeeze] returned, and when that
    is a Series the call is outside this model ([NotScalar]). *)
Inductive outcome : Type :=
| Printed (lines : list string)
| NotScalar.

(** [a < b] on rationals, as a boolean.  Every binary64 number is a rational,
    and comparisons of floats are exact. *)
Definition Qltb (a b : Q) : bool := negb (Qle_bool b a).

(** Reading a count back from a printed line: the line either starts with
    the word [No] or with the decimal digits of the count. *)
Definition is_digit (c : ascii) : bool :=
  let n := nat_of_ascii c in ((48 <=? n) && (n <=? 57))%nat.

Fixpoint take_digits (s : string) : string :=
  match s with
  | String c rest => if is_digit c then String c (take_digits rest) else EmptyString
  | EmptyString => EmptyString
  end.

Definition leading_count (line : string) : option nat :=
  if prefix "No " line then Some 0
  else match take_digits line with
       | EmptyString => None
       | ds => option_map Nat.of_uint (NilEmpty.uint_of_string ds)
       end.

Definition reported_count (o : outcome) : option nat :=
  match o with
  | Printed (line :: _) => leading_count line
  | _ => None
  end.

Lemma Qltb_lt (a b : Q) : Qltb a b = true <-> (a < b)%Q.
Proof.
  unfold Qltb. rewrite negb_true_iff. split.
  - intros H. destruct (Qlt_le_dec a b) as [Hlt|Hle]; [exact Hlt|].
    apply Qle_bool_iff in Hle. congruence.
  - intros H. destruct (Qle_bool b a) eqn:E; [|reflexivity].
    apply Qle_bool_iff in E. lra.
Qed.

(** *** Reading back what [str_nat] wrote *)

Lemma string_of_uint_digits (d : uint) (c : ascii) (rest : string) :
  is_digit c = false ->
  take_digits (NilEmpty.string_of_uint d ++ String c rest)
  = NilEmpty.string_of_uint d.
Proof.
  intros Hc.
  induction d; simpl; try (rewrite IHd; reflexivity).
  now rewrite Hc.
Qed.

Lemma to_uint_not_Nil (n : nat) : Nat.to_uint n <> Nil.
Proof.
  intros H.
  assert (Hn : n = 0).
  { rewrite <- (Unsigned.of_to n), H. reflexivity. }
  subst n. discriminate H.
Qed.

Lemma string_of_uint_head (d : uint) :
  d <> Nil ->
  exists c s, NilEmpty.string_of_uint d = String c s /\ is_digit c = true.
Proof.
  destruct d; intros H; try congruence; simpl; eexists; eexists; split;
    try reflexivity; reflexivity.
Qed.

Lemma leading_count_str_nat (n : nat) (rest : string) :
  leading_count (str_nat n ++ String " " rest) = Some n.
Proof.
  unfold leading_count, str_nat.
  destruct (string_of_uint_head (Nat.to_uint n) (to_uint_not_Nil n))
    as (c & s & Hs & Hc).
  assert (Hpre : prefix "No " (NilEmpty.string_of_uint (Nat.to_uint n)
                               ++ String " " rest) = false).
  { rewrite Hs. cbn [append prefix].
    destruct (ascii_dec "N" c) as [<- | _]; [discriminate Hc | reflexivity]. }
  rewrite Hpre, string_of_uint_digits by reflexivity.
  pose proof (NilEmpty.usu (Nat.to_uint n)) as Hu.
  rewrite Hs in *.
  rewrite Hu. cbn [option_map].
  now rewrite Unsigned.of_to.
Qed.

End Py.

(** ** Relations.ipynb *)

Module Relations.
Import Py.

Section Helpers.

(** The notebook's geometries are shapely objects: the pump locations are
    points, the buffers polygons.  The two binary predicates the helpers call
    are shapely's; the helpers only branch on their boolean result. *)
Variables (Point Polygon : Type).
Variable contains : Polygon -> Point -> bool.
Variable overlaps : Polygon -> Polygon -> bool.

(** A row of the [pumps] GeoDataFrame after [pumps['buffer']=pumps.buffer(200)],
    restricted to the columns the helpers read. *)
Record pump : Type := mkPump
  { name : string;
    geometry : Point;
    buffer : Polygon }.

Definition GeoDataFrame : Type := list pump.

(** [pumpsGDF[pumpsGDF['name']==n]]: the rows whose name is [n], in order. *)
Definition select_name (n : string) (pumpsGDF : GeoDataFrame) : GeoDataFrame :=
  filter (fun r => String.eqb (name r) n) pumpsGDF.

(** The [for index, row in pumpsGDF.iterrows()] loop of
    [countBuffersContaining], with the list [contained] as accumulator. *)
Fixpoint contained_loop (focalPump : squeezed Point) (rows : GeoDataFrame)
    (contained : list string) : option (list string) :=
  match rows with
  | [] => Some contained
  | row :: rest =>
      match focalPump with
      | Scalar p =>
          if contains (buffer row) p
          then contained_loop focalPump rest (contained ++ [name row])
          else contained_loop focalPump rest contained
      | Series _ => None
      end
  end.

(** The three-way report on [len(contained)]. *)
Definition report (pumpName : string) (contained : list string) : list string :=
  if List.length contained =? 0 then
    [("No buffers contain " ++ pumpName)%string]
  else if List.length contained =? 1 then
    [("1 buffer contains " ++ pumpName)%string;
     ("That buffer is " ++ nth 0 contained "")%string]
  else
    (str_nat (List.length contained) ++ " buffers contain " ++ pumpName
       ++ ". They are:")%string
      :: contained.

Definition countBuffersContaining (pumpName : string) (pumpsGDF : GeoDataFrame)
    : outcome :=
  let focalPump := squeeze (map geometry (select_name pumpName pumpsGDF)) in
  match contained_loop focalPump pumpsGDF [] with
  | Some contained => Printed (report pumpName contained)
  | None => NotScalar
  end.

Definition name_error : string := "Pump name incorrectly specified".

(** What [tidyBufferOverlaps] prints: a line of text, or [result] for the
    call [Abuf.overlaps(Bbuf)] in which [squeeze] left a Series on either
    side.  geopandas and shapely then apply the predicate element by element
    and return a Series or an array; that value is theirs, and is kept here
    as the call that produced it, operands in order. *)
Inductive printout : Type :=
| Line (text : string)
| Elementwise (Abuf Bbuf : squeezed Polygon).

Definition tidyBufferOverlaps (buff1 buff2 : string) (pumpsGDF : GeoDataFrame)
    : printout :=
  let A := select_name buff1 pumpsGDF in
  let B := select_name buff2 pumpsGDF in
  let Abuf := squeeze (map buffer A) in
  let Bbuf := squeeze (map buffer B) in
  if (List.length A =? 0) || (List.length B =? 0) then
    Line name_error
  else
    match Abuf, Bbuf with
    | Scalar a, Scalar b => Line (str_bool (overlaps a b))
    | _, _ => Elementwise Abuf Bbuf
    end.

(** The number of rows whose buffer polygon contains the point [p]. *)
Definition count_containing (p : Point) (pumpsGDF : GeoDataFrame) : nat :=
  List.length (filter (fun r => contains (buffer r) p) pumpsGDF).

(** *** Properties of the two helpers *)

Lemma contained_loop_scalar (p : Point) (rows : GeoDataFrame) :
  forall contained,
    contained_loop (Scalar p) rows contained
    = Some (contained ++ map name (filter (fun r => contains (buffer r) p) rows)).
Proof.
  induction rows as [|row rest IH]; intros contained; simpl.
  - now rewrite app_nil_r.
  - destruct (contains (buffer row) p); rewrite IH; simpl.
    + now rewrite <- app_assoc.
    + reflexivity.
Qed.

Lemma select_name_length (n : string) (pumpsGDF : GeoDataFrame) :
  List.length (select_name n pumpsGDF)
  = count_occ string_dec (map name pumpsGDF) n.
Proof.
  induction pumpsGDF as [|row rest IH]; simpl; [reflexivity|].
  destruct (string_dec (name row) n) as [E|E].
  - apply String.eqb_eq in E. rewrite E. simpl. now rewrite IH.
  - apply String.eqb_neq in E. now rewrite E.
Qed.


Lemma select_name_spec (n : string) (pumpsGDF : GeoDataFrame) (row : pump) :
  In row (select_name n pumpsGDF) <-> In row pumpsGDF /\ name row = n.
Proof.
  unfold select_name. rewrite filter_In, String.eqb_eq. tauto.
Qed.

Lemma report_leading_count (pumpName : string) (contained : list string) :
  reported_count (Printed (report pumpName contained))
  = Some (List.length contained).
Proof.
  unfold report.
  destruct contained as [|a [|b rest]]; try reflexivity.
  cbn [List.length Nat.eqb reported_count].
  apply (leading_count_str_nat (S (S (List.length rest)))).
Qed.

(** C10.  For a pump name that occurs exactly once in the [name] column, the
    count that [countBuffersContaining] prints (the word [No], or the number
    that opens the first line) is the number of rows of the frame whose
    buffer polygon contains that pump's point; the names it lists are those
    rows' names, in row order. *)
Theorem countBuffersContaining_count (pumpName : string) (pumpsGDF : GeoDataFrame) :
  count_occ string_dec (map name pumpsGDF) pumpName = 1 ->
  exists row,
    In row pumpsGDF /\ name row = pumpName /\
    countBuffersContaining pumpName pumpsGDF
    = Printed (report pumpName
                 (map name (filter (fun r => contains (buffer r) (geometry row))
                              pumpsGDF))) /\
    reported_count (countBuffersContaining pumpName pumpsGDF)
    = Some (count_containing (geometry row) pumpsGDF).
Proof.
  intros Honce.
  rewrite <- select_name_length in Honce.
  destruct (select_name pumpName pumpsGDF) as [|row [|row' rest]] eqn:Hsel;
    try discriminate Honce.
  assert (Hrow : In row pumpsGDF /\ name row = pumpName).
  { apply select_name_spec. rewrite Hsel. now left. }
  exists row. destruct Hrow as [Hin Hname].
  assert (Hrun : countBuffersContaining pumpName pumpsGDF
                 = Printed (report pumpName
                      (map name (filter (fun r => contains (buffer r) (geometry row))
                                   pumpsGDF)))).
  { unfold countBuffersContaining. rewrite Hsel. cbn [map squeeze].
    now rewrite contained_loop_scalar. }
  repeat split; try assumption.
  rewrite Hrun, report_leading_count.
  unfold count_containing. now rewrite length_map.
Qed.



End Helpers.

Arguments name {Point Polygon} p.
Arguments geometry {Point Polygon} p.
Arguments buffer {Point Polygon} p.
Arguments mkPump {Point Polygon} name geometry buffer.
Arguments select_name {Point Polygon} n pumpsGDF.
Arguments countBuffersContaining {Point Polygon} contains pumpName pumpsGDF.
Arguments Line {Polygon} text.
Arguments Elementwise {Polygon} Abuf Bbuf.
Arguments tidyBufferOverlaps {Point Polygon} overlaps buff1 buff2 pumpsGDF.
Arguments count_containing {Point Polygon} contains p pumpsGDF.

(** *** A small frame to run the helpers on

    Planar points with integer coordinates (metres), and round buffers given
    by centre and radius; [contains] and [overlaps] hold on interiors, as in
    shapely. *)
Module Example.

Definition point : Type := (Z * Z)%type.
Definition disc : Type := (point * Z)%type.

Definition dist2 (p q : point) : Z :=
  ((fst p - fst q) * (fst p - fst q) + (snd p - snd q) * (snd p - snd q))%Z.

Definition disc_contains (d : disc) (p : point) : bool :=
  (dist2 (fst d) p <? snd d * snd d)%Z.

Definition disc_overlaps (d e : disc) : bool :=
  ((dist2 (fst d) (fst e) <? (snd d + snd e) * (snd d + snd e))
   && ((snd d - snd e) * (snd d - snd e) <? dist2 (fst d) (fst e)))%Z.

Definition pump_at (n : string) (x y : Z) : pump point disc :=
  mkPump n (x, y) ((x, y), 200%Z).

Definition soho : GeoDataFrame point disc :=
  [ pump_at "Broad St Pump" 529396 181025;
    pump_at "Rupert St Pump" 529593 180661;
    pump_at "Ramilies Place Pump" 529193 181163;
    pump_at "Warwick St Pump" 529164 180860;
    pump_at "Marlborough Mews Pump" 529300 181200 ].

End Example.

(** C10, run: [Marlborough Mews Pump] occurs once in [soho]; three buffers
    contain it, and [3 buffers contain ...] is what the helper prints. *)
Lemma countBuffersContaining_count_soho :
  count_occ string_dec (map name Example.soho) "Marlborough Mews Pump" = 1 /\
  exists row,
    In row Example.soho /\ name row = "Marlborough Mews Pump" /\
    countBuffersContaining Example.disc_contains "Marlborough Mews Pump" Example.soho
    = Printed (report "Marlborough Mews Pump"
                 (map name (filter (fun r => Example.disc_contains (buffer r) (geometry row))
                              Example.soho))) /\
    reported_count
      (countBuffersContaining Example.disc_contains "Marlborough Mews Pump" Example.soho)
    = Some (count_containing Example.disc_contains (geometry row) Example.soho).
Proof.
  split; [reflexivity|].
  apply (countBuffersContaining_count _ _ Example.disc_contains
           "Marlborough Mews Pump" Example.soho).
  reflexivity.
Defined.


End Relations.

(** ** Tables: the pandas operations the notebooks use on loaded datasets *)

Module Frame.
Import Py.

Section Tables.

(** Geometries are values of the geometry library; a table only stores them. *)
Variable Geom : Type.

Inductive value : Type :=
| VInt (z : Z)
| VFloat (q : Q)
| VStr (s : string)
| VGeom (g : Geom).

(** A (Geo)DataFrame: its columns in order, each a name and one value per row. *)
Definition DataFrame : Type := list (string * list value).

Definition columns (df : DataFrame) : list string := map fst df.

(** [len(df)]: the number of rows (0 for a table without columns). *)
Definition len (df : DataFrame) : nat :=
  match df with
  | [] => 0
  | (_, col) :: _ => List.length col
  end.

(** [df[c]]; [None] is pandas' [KeyError]. *)
Fixpoint getitem (df : DataFrame) (c : string) : option (list value) :=
  match df with
  | [] => None
  | (c', col) :: rest => if String.eqb c' c then Some col else getitem rest c
  end.

Fixpoint replace_column (df : DataFrame) (c : string) (vals : list value)
    : DataFrame :=
  match df with
  | [] => []
  | (c', col) :: rest =>
      if String.eqb c' c then (c', vals) :: rest
      else (c', col) :: replace_column rest c vals
  end.

(** [df[c] = vals] for a list of values: an existing column is overwritten in
    place, a new one is appended; [None] is the [ValueError] pandas raises when
    the length of [vals] is not the number of rows.  A table without columns
    takes a first column of any length. *)
Definition setitem (df : DataFrame) (c : string) (vals : list value)
    : option DataFrame :=
  match df with
  | [] => Some [(c, vals)]
  | _ :: _ =>
      if negb (List.length vals =? len df) then None
      else match getitem df c with
           | Some _ => Some (replace_column df c vals)
           | None => Some (df ++ [(c, vals)])
           end
  end.

(** [[i for i in range(len(deaths['Id']))]]: the comprehension iterates over
    [range(len(deaths['Id']))] and yields each index. *)
Definition id_range (deaths : DataFrame) : option (list nat) :=
  option_map (fun ids => range (List.length ids)) (getitem deaths "Id").

Definition id_comprehension (deaths : DataFrame) : option (list value) :=
  option_map (map (fun i => VInt (Z.of_nat i))) (id_range deaths).

(** [deaths['Id'] = [i for i in range(len(deaths['Id']))]] *)
Definition assign_ids (deaths : DataFrame) : option DataFrame :=
  match id_comprehension deaths with
  | Some vals => setitem deaths "Id" vals
  | None => None
  end.

(** [pumps.buffer(d)]: the geometry library's buffer on every entry of the
    [geometry] column. *)
Variable buffer : Geom -> Q -> Geom.

Fixpoint buffer_all (d : Q) (col : list value) : option (list value) :=
  match col with
  | [] => Some []
  | VGeom g :: rest => option_map (cons (VGeom (buffer g d))) (buffer_all d rest)
  | _ :: _ => None
  end.

(** [pumps['buffer'] = pumps.buffer(200)] *)
Definition assign_buffer (pumps : DataFrame) : option DataFrame :=
  match getitem pumps "geometry" with
  | Some col =>
      match buffer_all (200 # 1) col with
      | Some polys => setitem pumps "buffer" polys
      | None => None
      end
  | None => None
  end.

(** The two computations of the Arribas-Bel notebook whose result becomes a
    column of the streets table [js]: [lps.weights.lag_spatial(w, js[src])],
    and [(js[src] - js[src].mean()) / js[src].std()]. *)
Inductive derived : Type :=
| LagSpatial
| Standardized.

(** The values libpysal and pandas compute from a column; the arithmetic is
    theirs, on floats. *)
Variable compute : derived -> list value -> list value.

(** [js[new] = ...js[src]...] *)
Definition assign_derived (new : string) (how : derived) (src : string)
    (js : DataFrame) : option DataFrame :=
  match getitem js src with
  | Some col => setitem js new (compute how col)
  | None => None
  end.

(** What the notebooks do to a loaded dataset ([pumps], [blocks], [deaths],
    [houses], [js]): the column assignments above, and calls that only read
    it ([head], [plot], [crs], [dtypes], [shape], [total_bounds],
    [iloc]/[loc], boolean masks, [iterrows], [sample], [set_index], [mean],
    [sjoin], [np.vstack] of its columns, [w.remap_ids] with one of its
    columns), each of which builds a new object. *)
Inductive operation : Type :=
| AssignIds
| AssignBuffer
| AssignDerived (new : string) (how : derived) (src : string)
| ReadOnly.

(** The three assignments to [js], in the order of the notebook. *)
Definition js_assignments : list operation :=
  [ AssignDerived "w_Deaths_dens" LagSpatial "Deaths_dens";
    AssignDerived "Deaths_dens_std" Standardized "Deaths_dens";
    AssignDerived "w_Deaths_dens_std" LagSpatial "Deaths_dens_std" ].

Definition perform (o : operation) (df : DataFrame) : option DataFrame :=
  match o with
  | AssignIds => assign_ids df
  | AssignBuffer => assign_buffer df
  | AssignDerived new how src => assign_derived new how src df
  | ReadOnly => Some df
  end.

(** Operations one after the other; the first exception ends the run. *)
Fixpoint perform_all (os : list operation) (df : DataFrame) : option DataFrame :=
  match os with
  | [] => Some df
  | o :: rest =>
      match perform o df with
      | Some df' => perform_all rest df'
      | None => None
      end
  end.

(** The column an operation assigns to, if any. *)
Definition assigned (o : operation) : option string :=
  match o with
  | AssignIds => Some "Id"
  | AssignBuffer => Some "buffer"
  | AssignDerived new _ _ => Some new
  | ReadOnly => None
  end.


(** A session: the files on disk and the tables bound to the notebook's
    variables.  [gpd.read_file] is the only statement that touches a file. *)
Record session : Type := mkSession
  { storage : string -> option DataFrame;
    bound : list (string * DataFrame) }.

Inductive statement : Type :=
| ReadFile (var path : string)
| On (var : string) (o : operation).

Fixpoint lookup (env : list (string * DataFrame)) (var : string)
    : option DataFrame :=
  match env with
  | [] => None
  | (v, df) :: rest => if String.eqb v var then Some df else lookup rest var
  end.

Definition execute (st : statement) (s : session) : option session :=
  match st with
  | ReadFile var path =>
      match storage s path with
      | Some df => Some (mkSession (storage s) ((var, df) :: bound s))
      | None => None
      end
  | On var o =>
      match lookup (bound s) var with
      | Some df =>
          match perform o df with
          | Some df' => Some (mkSession (storage s) ((var, df') :: bound s))
          | None => None
          end
      | None => None
      end
  end.

(** *** Column assignment leaves the other columns alone *)

Lemma getitem_replace_other (df : DataFrame) (c c' : string) (vals : list value) :
  c <> c' -> getitem (replace_column df c vals) c' = getitem df c'.
Proof.
  intros Hne. induction df as [|[c0 col0] rest IH]; simpl; [reflexivity|].
  destruct (String.eqb c0 c) eqn:E0; simpl.
  - apply String.eqb_eq in E0. subst c0.
    apply String.eqb_neq in Hne. now rewrite Hne.
  - destruct (String.eqb c0 c'); [reflexivity | exact IH].
Qed.

Lemma getitem_replace_same (df : DataFrame) (c : string) (vals col : list value) :
  getitem df c = Some col -> getitem (replace_column df c vals) c = Some vals.
Proof.
  induction df as [|[c0 col0] rest IH]; simpl; [discriminate|].
  destruct (String.eqb c0 c) eqn:E0; simpl; rewrite E0; auto.
Qed.

Lemma getitem_app (df : DataFrame) (c c' : string) (vals : list value) :
  getitem (df ++ [(c, vals)]) c'
  = match getitem df c' with
    | Some col => Some col
    | None => if String.eqb c c' then Some vals else None
    end.
Proof.
  induction df as [|[c0 col0] rest IH]; simpl; [reflexivity|].
  destruct (String.eqb c0 c'); [reflexivity | exact IH].
Qed.

Lemma setitem_other (df df' : DataFrame) (c c' : string) (vals col : list value) :
  setitem df c vals = Some df' -> c <> c' ->
  getitem df c' = Some col -> getitem df' c' = Some col.
Proof.
  unfold setitem. intros Hset Hne Hget.
  destruct df as [|col0 rest] eqn:Hdf; [discriminate Hget|]. rewrite <- Hdf in *.
  destruct (negb (List.length vals =? len df)); [discriminate|].
  destruct (getitem df c); injection Hset as <-.
  - now rewrite getitem_replace_other.
  - now rewrite getitem_app, Hget.
Qed.

Lemma setitem_same (df df' : DataFrame) (c : string) (vals : list value) :
  setitem df c vals = Some df' -> getitem df' c = Some vals.
Proof.
  unfold setitem. intros Hset.
  destruct df as [|col0 rest] eqn:Hdf.
  - injection Hset as <-. cbn. now rewrite String.eqb_refl.
  - rewrite <- Hdf in *.
    destruct (negb (List.length vals =? len df)); [discriminate|].
    destruct (getitem df c) eqn:Hget; injection Hset as <-.
    + eapply getitem_replace_same; eassumption.
    + now rewrite getitem_app, Hget, String.eqb_refl.
Qed.

Lemma execute_storage (st : statement) (s s' : session) :
  execute st s = Some s' -> storage s' = storage s.
Proof.
  destruct st as [var path | var o]; simpl.
  - destruct (storage s path); intros [= <-]; reflexivity.
  - destruct (lookup (bound s) var) as [df|]; [|discriminate].
    destruct (perform o df); intros [= <-]; reflexivity.
Qed.



(** C5 (as amended).  An operation on a loaded table keeps every column other
    than the one it assigns to.  An assignment to a column the table does not
    have yet ([pumps['buffer'] = ...], the three assignments to [js])
    therefore keeps every existing column and adds the new one; the
    assignment to [deaths['Id']] overwrites the existing [Id] column with
    [0 .. n-1]; the other calls return the table as it was.  No statement
    changes the files on disk. *)
Theorem perform_keeps_other_columns (o : operation) (df df' : DataFrame) :
  perform o df = Some df' ->
  (forall c col,
      getitem df c = Some col -> assigned o <> Some c ->
      getitem df' c = Some col) /\
  (forall new,
      assigned o = Some new -> getitem df new = None ->
      (forall c col, getitem df c = Some col -> getitem df' c = Some col) /\
      getitem df' new <> None) /\
  (o = AssignIds ->
   exists ids,
     getitem df "Id" = Some ids /\
     getitem df' "Id"
     = Some (map (fun i => VInt (Z.of_nat i)) (range (List.length ids)))) /\
  (forall new how src,
      o = AssignDerived new how src ->
      exists col,
        getitem df src = Some col /\
        getitem df' new = Some (compute how col)) /\
  (o = ReadOnly -> df' = df) /\
  (forall st s s', execute st s = Some s' -> storage s' = storage s).
Proof.
  intros Hrun.
  assert (Hkeep : forall c col,
             getitem df c = Some col -> assigned o <> Some c ->
             getitem df' c = Some col).
  { intros c col Hget Hc. destruct o; simpl in *.
    - unfold assign_ids in Hrun.
      destruct (id_comprehension df) as [vals|]; [|discriminate].
      eapply setitem_other; eauto. congruence.
    - unfold assign_buffer in Hrun.
      destruct (getitem df "geometry") as [g|]; [|discriminate].
      destruct (buffer_all _ g) as [polys|]; [|discriminate].
      eapply setitem_other; eauto. congruence.
    - unfold assign_derived in Hrun.
      destruct (getitem df src) as [g|]; [|discriminate].
      eapply setitem_other; eauto. congruence.
    - congruence. }
  assert (Hset : forall new, assigned o = Some new -> getitem df' new <> None).
  { intros new Hnew. destruct o; simpl in *; try discriminate Hnew;
      injection Hnew as <-.
    - unfold assign_ids in Hrun.
      destruct (id_comprehension df) as [vals|]; [|discriminate].
      rewrite (setitem_same _ _ _ _ Hrun). discriminate.
    - unfold assign_buffer in Hrun.
      destruct (getitem df "geometry") as [g|]; [|discriminate].
      destruct (buffer_all _ g) as [polys|]; [|discriminate].
      rewrite (setitem_same _ _ _ _ Hrun). discriminate.
    - unfold assign_derived in Hrun.
      destruct (getitem df src) as [g|]; [|discriminate].
      rewrite (setitem_same _ _ _ _ Hrun). discriminate. }
  split; [exact Hkeep|]. split; [|split; [|split; [|split]]].
  - intros new Hnew Habsent. split; [|now apply Hset].
    intros c col Hget. apply Hkeep; [exact Hget|].
    rewrite Hnew. intros [= <-]. congruence.
  - intros ->. simpl in Hrun. unfold assign_ids, id_comprehension, id_range in Hrun.
    destruct (getitem df "Id") as [ids|] eqn:Hids; [|discriminate].
    exists ids. split; [reflexivity|].
    simpl in Hrun. eapply setitem_same; eassumption.
  - intros new how src ->. simpl in Hrun. unfold assign_derived in Hrun.
    destruct (getitem df src) as [col|] eqn:Hsrc; [|discriminate].
    exists col. split; [reflexivity|]. eapply setitem_same; eassumption.
  - intros ->. simpl in Hrun. congruence.
  - apply execute_storage.
Qed.

End Tables.

Arguments VInt {Geom} z.
Arguments VFloat {Geom} q.
Arguments VStr {Geom} s.
Arguments VGeom {Geom} g.
Arguments getitem {Geom} df c.
Arguments setitem {Geom} df c vals.
Arguments len {Geom} df.
Arguments columns {Geom} df.
Arguments id_range {Geom} deaths.
Arguments id_comprehension {Geom} deaths.
Arguments assign_ids {Geom} deaths.
Arguments assign_buffer {Geom} buffer pumps.
Arguments assign_derived {Geom} compute new how src js.
Arguments perform {Geom} buffer compute o df.
Arguments perform_all {Geom} buffer compute os df.
Arguments execute {Geom} buffer compute st s.
Arguments storage {Geom} s.
Arguments bound {Geom} s.

(** *** A run on a small [deaths] table

    As in [Cholera_Deaths.shp], the [Id] column holds only zeros when the file
    is loaded.  The shapes stand in for the geometry library. *)
Module Sample.

Inductive shape : Type :=
| Pt (x y : Z)
| Round (x y r : Z).

Definition round_buffer (g : shape) (d : Q) : shape :=
  match g with
  | Pt x y => Round x y (Qfloor d)
  | Round x y r => Round x y (r + Qfloor d)
  end.

(** A stand-in for the two computations on a column of [js]. *)
Definition halves (how : derived) (col : list (value shape)) : list (value shape) :=
  map (fun v => match v with
                | VFloat q => VFloat (q / (2 # 1))
                | other => other
                end) col.

Definition deaths : DataFrame shape :=
  [ ("Id", [VInt 0; VInt 0; VInt 0]);
    ("Count", [VInt 3; VInt 2; VInt 1]);
    ("geometry", [VGeom (Pt 529308 181031); VGeom (Pt 529312 181025);
                  VGeom (Pt 529314 181020)]) ].

(** Two street segments of [streets_js.shp]. *)
Definition js : DataFrame shape :=
  [ ("segIdStr", [VStr "s0-1"; VStr "s1-2"]);
    ("Deaths_dens", [VFloat (3 # 1); VFloat (1 # 2)]) ].

Definition deaths_numbered : DataFrame shape :=
  [ ("Id", [VInt 0; VInt 1; VInt 2]);
    ("Count", [VInt 3; VInt 2; VInt 1]);
    ("geometry", [VGeom (Pt 529308 181031); VGeom (Pt 529312 181025);
                  VGeom (Pt 529314 181020)]) ].

End Sample.

(** C5, run: numbering the three rows of [Sample.deaths] keeps [Count]. *)
Lemma perform_keeps_other_columns_deaths :
  perform Sample.round_buffer Sample.halves AssignIds Sample.deaths
  = Some Sample.deaths_numbered /\
  getitem Sample.deaths_numbered "Count" = Some [VInt 3; VInt 2; VInt 1].
Proof.
  assert (Hrun : perform Sample.round_buffer Sample.halves AssignIds Sample.deaths
                 = Some Sample.deaths_numbered) by reflexivity.
  split; [exact Hrun|].
  apply (proj1 (perform_keeps_other_columns _ Sample.round_buffer Sample.halves
                  AssignIds Sample.deaths Sample.deaths_numbered Hrun)).
  - reflexivity.
  - discriminate.
Defined.

(** The three assignments to [js] append three columns and keep the two the
    file came with. *)
Example js_assignments_append :
  option_map columns
    (perform_all Sample.round_buffer Sample.halves js_assignments Sample.js)
  = Some ["segIdStr"; "Deaths_dens"; "w_Deaths_dens"; "Deaths_dens_std";
          "w_Deaths_dens_std"] /\
  option_map (fun df => (getitem df "segIdStr", getitem df "Deaths_dens"))
    (perform_all Sample.round_buffer Sample.halves js_assignments Sample.js)
  = Some (getitem Sample.js "segIdStr", getitem Sample.js "Deaths_dens").
Proof. split; reflexivity. Qed.

(** C5, as first stated, fails: the assignment to [deaths['Id']] changes the
    values of a column the loaded table already has. *)
Lemma assign_ids_overwrites_Id :
  ~ (forall (o : operation) (df df' : DataFrame Sample.shape) c col,
        perform Sample.round_buffer Sample.halves o df = Some df' ->
        getitem df c = Some col -> getitem df' c = Some col).
Proof.
  intros H.
  specialize (H AssignIds Sample.deaths Sample.deaths_numbered "Id"
                [VInt 0; VInt 0; VInt 0] eq_refl eq_refl).
  discriminate H.
Qed.

End Frame.

(** ** Coordinate reference systems along the notebooks

    The notebooks are straight-line programs.  For the question which
    coordinate reference system (CRS) each table carries when two tables are
    compared, a statement matters only through the variable it binds and the
    CRS that variable gets. *)

Module Notebook.

(** A CRS is the EPSG code geopandas shows; [None] is a table without CRS. *)
Definition crs : Type := option Z.

Inductive relation : Type :=
| Distance | Within | Contains | Overlaps.

Inductive how : Type :=
| Inner | Left | Right.

Inductive statement : Type :=
(** [var = gpd.read_file(path)] *)
| ReadFile (var path : string)
(** [var[col] = ...]: a column assignment, which leaves the CRS alone *)
| SetColumn (var col : string)
(** [new = old.loc[:, old.columns != 'geometry']] followed by
    [new = new.rename(columns = {'buffer':'geometry'})]: the buffer polygons of
    [old], which [old.buffer(200)] built in the CRS of [old] *)
| BuffersOf (new old : string)
(** [points = np.vstack([src['x'], src['y']]).T] followed by
    [regions, vertices = voronoi_frames(points, clip='none')]: tables built
    from a bare coordinate array, so without CRS *)
| VoronoiFrames (regions vertices src : string)
(** [var = var.set_crs(epsg=code)] *)
| SetCrs (var : string) (code : Z)
(** [result = gpd.sjoin(lhs, rhs, op=..., how=...)] *)
| Sjoin (result lhs rhs : string) (op : relation) (h : how)
(** a shapely relation between geometries taken from two tables *)
| Compare (op : relation) (lhs rhs : string).

(** One comparison, as it happened: the notebook cell (counted from 0 over all
    cells of the notebook, text cells included), the relation, and the CRS of
    either side at that moment. *)
Record comparison : Type := mkComparison
  { cell : nat;
    rel : relation;
    left_crs : crs;
    right_crs : crs }.

Definition env : Type := list (string * crs).

Fixpoint crs_of (e : env) (var : string) : option crs :=
  match e with
  | [] => None
  | (v, c) :: rest => if String.eqb v var then Some c else crs_of rest var
  end.

Definition crs_eqb (a b : crs) : bool :=
  match a, b with
  | Some x, Some y => Z.eqb x y
  | None, None => true
  | _, _ => false
  end.

Section Run.

(** The CRS recorded in each file on disk. *)
Variable disk : string -> crs.

(** One statement of cell [n]: the new environment and the comparison made,
    if any.  [None] is a Python exception: an unbound variable, or [set_crs]
    on a table that already has another CRS. *)
Definition step (n : nat) (st : statement) (e : env)
    : option (env * list comparison) :=
  match st with
  | ReadFile var path => Some ((var, disk path) :: e, [])
  | SetColumn var _ =>
      match crs_of e var with
      | Some _ => Some (e, [])
      | None => None
      end
  | BuffersOf new old =>
      match crs_of e old with
      | Some c => Some ((new, c) :: e, [])
      | None => None
      end
  | VoronoiFrames regions vertices src =>
      match crs_of e src with
      | Some _ => Some ((regions, None) :: (vertices, None) :: e, [])
      | None => None
      end
  | SetCrs var code =>
      match crs_of e var with
      | Some None => Some ((var, Some code) :: e, [])
      | Some (Some old) =>
          if Z.eqb old code then Some ((var, Some code) :: e, []) else None
      | None => None
      end
  | Sjoin result lhs rhs op h =>
      match crs_of e lhs, crs_of e rhs with
      | Some cl, Some cr =>
          Some ((result, match h with Right => cr | _ => cl end) :: e,
                [mkComparison n op cl cr])
      | _, _ => None
      end
  | Compare op lhs rhs =>
      match crs_of e lhs, crs_of e rhs with
      | Some cl, Some cr => Some (e, [mkComparison n op cl cr])
      | _, _ => None
      end
  end.

Fixpoint run (prog : list (nat * statement)) (e : env)
    : option (list comparison) :=
  match prog with
  | [] => Some []
  | (n, st) :: rest =>
      match step n st e with
      | Some (e', cs) => option_map (fun later => cs ++ later) (run rest e')
      | None => None
      end
  end.

End Run.

Definition mismatched (trace : list comparison) : list comparison :=
  filter (fun c => negb (crs_eqb (left_crs c) (right_crs c))) trace.

(** [SpatialJoins.ipynb], cell by cell. *)
Definition SpatialJoins : list (nat * statement) :=
  [ (6, ReadFile "pumps" "../../data/csds/snow7/pumps.shp");
    (6, ReadFile "blocks" "../../data/dani/polys.shp");
    (6, ReadFile "deaths" "../../data/dani/Cholera_Deaths.shp");
    (10, SetColumn "deaths" "Id");
    (15, SetColumn "pumps" "buffer");
    (22, BuffersOf "buffers" "pumps");
    (24, Sjoin "deaths_within_buffers" "deaths" "buffers" Within Inner);
    (27, Sjoin "buffers_contains_deaths" "buffers" "deaths" Contains Inner);
    (29, Sjoin "buffers_contains_deaths" "buffers" "deaths" Contains Right);
    (36, Sjoin "dwb_inner" "deaths" "buffers" Within Inner);
    (36, Sjoin "dwb_left" "deaths" "buffers" Within Left);
    (36, Sjoin "dwb_right" "deaths" "buffers" Within Right);
    (41, Sjoin "deaths_contain_buffers" "deaths" "buffers" Contains Inner);
    (55, VoronoiFrames "regions_df" "vertices_df" "pumps");
    (57, SetColumn "regions_df" "name");
    (57, SetColumn "vertices_df" "name");
    (61, Sjoin "deaths_within_voronoi" "deaths" "regions_df" Within Inner);
    (69, SetCrs "regions_df" 27700);
    (73, Sjoin "deaths_within_voronoi" "deaths" "regions_df" Within Inner) ].

(** [Relations.ipynb]: every relation is taken between geometries of the one
    [pumps] table. *)
Definition Relations : list (nat * statement) :=
  [ (8, ReadFile "pumps" "../../data/csds/snow7/pumps.shp");
    (8, ReadFile "blocks" "../../data/dani/polys.shp");
    (36, Compare Distance "pumps" "pumps");
    (38, Compare Distance "pumps" "pumps");
    (40, Compare Distance "pumps" "pumps");
    (42, Compare Distance "pumps" "pumps");
    (44, Compare Distance "pumps" "pumps");
    (46, Compare Distance "pumps" "pumps");
    (48, Compare Distance "pumps" "pumps");
    (51, SetColumn "pumps" "buffer");
    (66, Compare Within "pumps" "pumps");
    (68, Compare Within "pumps" "pumps");
    (70, Compare Within "pumps" "pumps");
    (74, Compare Contains "pumps" "pumps");
    (76, Compare Contains "pumps" "pumps");
    (82, Compare Overlaps "pumps" "pumps");
    (86, Compare Overlaps "pumps" "pumps") ].

(** The three shapefiles are in EPSG:27700 (British National Grid). *)
Definition national_grid (disk : string -> crs) : Prop :=
  disk "../../data/csds/snow7/pumps.shp" = Some 27700%Z /\
  disk "../../data/dani/polys.shp" = Some 27700%Z /\
  disk "../../data/dani/Cholera_Deaths.shp" = Some 27700%Z.

(** *** Which comparisons see two different CRSs *)

Lemma crs_eqb_eq (a b : crs) : crs_eqb a b = true <-> a = b.
Proof.
  destruct a as [x|], b as [y|]; simpl; try (split; congruence).
  rewrite Z.eqb_eq. split; congruence.
Qed.

Lemma mismatched_nil (trace : list comparison) :
  mismatched trace = [] <->
  forall c, In c trace -> left_crs c = right_crs c.
Proof.
  unfold mismatched. induction trace as [|c rest IH]; simpl.
  - split; [intros _ c [] | reflexivity].
  - destruct (crs_eqb (left_crs c) (right_crs c)) eqn:E; simpl.
    + apply crs_eqb_eq in E. rewrite IH. split.
      * intros H c' [<- | Hin]; auto.
      * intros H c' Hin. apply H. now right.
    + split; [discriminate|].
      intros H. specialize (H c (or_introl eq_refl)).
      apply crs_eqb_eq in H. congruence.
Qed.

(** C6 (as amended).  With the three shapefiles in EPSG:27700, both notebooks
    run through; of the nine [sjoin] calls of [SpatialJoins.ipynb] exactly one
    compares tables whose CRSs differ: the first join of [deaths] against
    [regions_df] (cell 61), made while [regions_df] has no CRS.  After
    [regions_df.set_crs(epsg=27700)] the join is repeated on equal CRSs, and
    every relation of [Relations.ipynb] is between geometries of one table. *)
Theorem crs_match_except_first_voronoi_join (disk : string -> crs) :
  national_grid disk ->
  exists joins relations,
    run disk SpatialJoins [] = Some joins /\
    List.length joins = 9 /\
    mismatched joins = [mkComparison 61 Within (Some 27700%Z) None] /\
    run disk Relations [] = Some relations /\
    List.length relations = 14 /\
    (forall c, In c relations -> left_crs c = right_crs c).
Proof.
  intros (Hpumps & Hblocks & Hdeaths).
  eexists. eexists.
  split; [cbn; rewrite ?Hpumps, ?Hblocks, ?Hdeaths; reflexivity|].
  split; [reflexivity|].
  split; [reflexivity|].
  split; [cbn; rewrite ?Hpumps, ?Hblocks, ?Hdeaths; reflexivity|].
  split; [reflexivity|].
  apply mismatched_nil. reflexivity.
Qed.

(** The disk of the repository's [data] directory, as the notebooks describe it. *)
Definition soho_disk (path : string) : crs := Some 27700%Z.

(** C6, run on [soho_disk]. *)
Lemma crs_match_except_first_voronoi_join_soho :
  national_grid soho_disk /\
  exists joins relations,
    run soho_disk SpatialJoins [] = Some joins /\
    List.length joins = 9 /\
    mismatched joins = [mkComparison 61 Within (Some 27700%Z) None] /\
    run soho_disk Relations [] = Some relations /\
    List.length relations = 14 /\
    (forall c, In c relations -> left_crs c = right_crs c).
Proof.
  assert (H : national_grid soho_disk) by (repeat split).
  split; [exact H|].
  exact (crs_match_except_first_voronoi_join soho_disk H).
Defined.

(** C6, as first stated, fails: the join of cell 61 compares [deaths], in
    EPSG:27700, with [regions_df], which has no CRS yet. *)
Lemma first_voronoi_join_without_crs :
  ~ (forall disk trace,
        run disk SpatialJoins [] = Some trace ->
        forall c, In c trace -> left_crs c = right_crs c).
Proof.
  intros H.
  specialize (H soho_disk _ eq_refl (mkComparison 61 Within (Some 27700%Z) None)).
  assert (Hin : left_crs (mkComparison 61 Within (Some 27700%Z) None)
                = right_crs (mkComparison 61 Within (Some 27700%Z) None)).
  { apply H. cbn. tauto. }
  discriminate Hin.
Qed.

End Notebook.

(** ** What the code detects: CRS mismatches, missing columns, empty selections *)

Module Detection.
Import Py.





End Detection.

(** ** The spatial-weights notebook: [plotKernel] *)

Module Weights.
Import Py.

Local Open Scope Q_scope.

(** An entry of the dense weights matrix [wKernel.full()] returns: a finite
    binary64 number, which is a rational, or NaN. *)
Inductive float : Type :=
| NaN
| Fin (q : Q).

(** A float written in the source: what [str] prints for it, and the binary64
    number the literal denotes. *)
Record literal : Type := mkLiteral
  { repr : string;
    number : Q }.

Definition EQbins : list literal :=
  [ mkLiteral "0.0" 0;
    mkLiteral "0.2" (3602879701896397 # 18014398509481984);
    mkLiteral "0.4" (3602879701896397 # 9007199254740992);
    mkLiteral "0.6" (5404319552844595 # 9007199254740992);
    mkLiteral "0.8" (3602879701896397 # 4503599627370496);
    mkLiteral "1.0" 1 ].

(** [enumerate(l)] *)
Definition enumerate {A : Type} (l : list A) : list (nat * A) :=
  combine (seq 0 (List.length l)) l.

(** ['{0}-{1}'.format(a, b)] *)
Definition format_range (a b : literal) : string :=
  (repr a ++ "-" ++ repr b)%string.

(** The loop that builds [labs]:
    [for i,val in enumerate(EQbins): if(i > 0): labs.append(...)]. *)
Definition labs_step (labs : list string) (iv : nat * literal) : list string :=
  let i := fst iv in
  if (0 <? i)%nat then
    labs ++ [format_range (nth (i - 1) EQbins (mkLiteral "" 0))
                          (nth i EQbins (mkLiteral "" 0))]
  else labs.

Definition labs : list string :=
  fold_left labs_step (enumerate EQbins) [].

(** [full_matrix[full_matrix==0] = np.nan], on one entry; NaN compares unequal
    to 0 and stays. *)
Definition zero_to_nan (w : float) : float :=
  match w with
  | Fin q => if Qeq_bool q 0 then NaN else Fin q
  | NaN => NaN
  end.

(** [bins.searchsorted(x, side='left')] on ascending [bins]: the first index
    whose edge is not below [x]. *)
Fixpoint searchsorted_left (bins : list Q) (x : Q) : nat :=
  match bins with
  | [] => 0%nat
  | b :: rest => if Qltb b x then S (searchsorted_left rest x) else 0%nat
  end.

(** [pd.cut(x, bins, labels=labels)] on one entry, with the defaults
    [right=True] and [include_lowest=False]: the entry's position among the
    edges selects the label; NaN, and a position before the first or after
    the last edge, give NaN (here [None]). *)
Definition cut_one (bins : list Q) (labels : list string) (x : float)
    : option string :=
  match x with
  | NaN => None
  | Fin q =>
      let ids := searchsorted_left bins q in
      if (ids =? 0)%nat || (ids =? List.length bins)%nat then None
      else nth_error labels (ids - 1)
  end.

(** [pd.cut] on a row; [None] is the [ValueError] for labels that are not one
    fewer than the edges. *)
Definition cut (xs : list float) (bins : list Q) (labels : list string)
    : option (list (option string)) :=
  if (S (List.length labels) =? List.length bins)%nat
  then Some (map (cut_one bins labels) xs)
  else None.

(** [ids.index(focal)]; [None] is Python's [ValueError]. *)
Fixpoint index (ids : list string) (focal : string) : option nat :=
  match ids with
  | [] => None
  | i :: rest =>
      if String.eqb i focal then Some 0%nat
      else option_map S (index rest focal)
  end.

(** The [cats] column [plotKernel] assigns for the plot:
    [pd.cut(full_matrix[ids.index(focal)], bins=EQbins, labels=labs,
    duplicates='drop')] after the zeros of the matrix became NaN. *)
Definition plotKernel_cats (full_matrix : list (list float)) (ids : list string)
    (focal : string) : option (list (option string)) :=
  let full_matrix := map (map zero_to_nan) full_matrix in
  match index ids focal with
  | Some k =>
      match nth_error full_matrix k with
      | Some row => cut row (map number EQbins) labs
      | None => None
      end
  | None => None
  end.

(** The bin of one weight of the focal row. *)
Definition bin_of (w : float) : option string :=
  cut_one (map number EQbins) labs (zero_to_nan w).

(** The display bins as the legend names them: lower edge (exclusive), upper
    edge (inclusive), label. *)
Definition display_bins : list (Q * Q * string) :=
  [ (0, 3602879701896397 # 18014398509481984, "0.0-0.2"%string);
    (3602879701896397 # 18014398509481984, 3602879701896397 # 9007199254740992,
     "0.2-0.4"%string);
    (3602879701896397 # 9007199254740992, 5404319552844595 # 9007199254740992,
     "0.4-0.6"%string);
    (5404319552844595 # 9007199254740992, 3602879701896397 # 4503599627370496,
     "0.6-0.8"%string);
    (3602879701896397 # 4503599627370496, 1, "0.8-1.0"%string) ].

Definition in_bin (q : Q) (b : Q * Q * string) : Prop :=
  fst (fst b) < q /\ q <= snd (fst b).

(** *** The bins of [plotKernel] *)

Lemma labs_value :
  labs = ["0.0-0.2"; "0.2-0.4"; "0.4-0.6"; "0.6-0.8"; "0.8-1.0"]%string.
Proof. reflexivity. Qed.

Lemma Qltb_true (a b : Q) : a < b -> Qltb a b = true.
Proof. apply Qltb_lt. Qed.

Lemma Qltb_false (a b : Q) : b <= a -> Qltb a b = false.
Proof.
  intros H. unfold Qltb. apply negb_false_iff. now apply Qle_bool_iff.
Qed.

Lemma Qeq_bool_false (q : Q) : 0 < q -> Qeq_bool q 0 = false.
Proof.
  intros H. destruct (Qeq_bool q 0) eqn:E; [|reflexivity].
  apply Qeq_bool_eq in E. lra.
Qed.

Ltac settle_edges :=
  repeat match goal with
         | |- context [Qltb ?a ?b] =>
             first [ rewrite (Qltb_true a b) by lra
                   | rewrite (Qltb_false a b) by lra ]
         end.

Ltac other_bin Hb' Hin' :=
  cbn [In display_bins] in Hb';
  repeat (destruct Hb' as [<- | Hb']; [first [reflexivity | exfalso; cbn in Hin'; lra]|]);
  destruct Hb'.


Lemma bin_of_weight (q : Q) :
  0 < q <= 1 ->
  exists b,
    In b display_bins /\ in_bin q b /\ bin_of (Fin q) = Some (snd b) /\
    forall b', In b' display_bins -> in_bin q b' -> b' = b.
Proof.
  intros [Hpos Hone].
  unfold bin_of, zero_to_nan. rewrite (Qeq_bool_false q Hpos).
  rewrite labs_value. unfold cut_one, in_bin.
  cbn [map number EQbins searchsorted_left].
  destruct (Qlt_le_dec (3602879701896397 # 18014398509481984) q) as [H2|H2];
    [destruct (Qlt_le_dec (3602879701896397 # 9007199254740992) q) as [H4|H4];
     [destruct (Qlt_le_dec (5404319552844595 # 9007199254740992) q) as [H6|H6];
      [destruct (Qlt_le_dec (3602879701896397 # 4503599627370496) q) as [H8|H8]|]|]|].
  - exists (3602879701896397 # 4503599627370496, 1, "0.8-1.0"%string).
    settle_edges. cbn.
    repeat split; try tauto; try lra.
    intros b' Hb' Hin'. other_bin Hb' Hin'.
  - exists (5404319552844595 # 9007199254740992,
            3602879701896397 # 4503599627370496, "0.6-0.8"%string).
    settle_edges. cbn.
    repeat split; try tauto; try lra.
    intros b' Hb' Hin'. other_bin Hb' Hin'.
  - exists (3602879701896397 # 9007199254740992,
            5404319552844595 # 9007199254740992, "0.4-0.6"%string).
    settle_edges. cbn.
    repeat split; try tauto; try lra.
    intros b' Hb' Hin'. other_bin Hb' Hin'.
  - exists (3602879701896397 # 18014398509481984,
            3602879701896397 # 9007199254740992, "0.2-0.4"%string).
    settle_edges. cbn.
    repeat split; try tauto; try lra.
    intros b' Hb' Hin'. other_bin Hb' Hin'.
  - exists (0, 3602879701896397 # 18014398509481984, "0.0-0.2"%string).
    settle_edges. cbn.
    repeat split; try tauto; try lra.
    intros b' Hb' Hin'. other_bin Hb' Hin'.
Qed.

(** The bins are closed on the right: the number the literal [0.2] denotes
    falls in the first bin, and so does one fifth, which is just below it;
    a weight above 1 gets no bin. *)
Example bin_of_edge :
  bin_of (Fin (3602879701896397 # 18014398509481984)) = Some "0.0-0.2"%string /\
  bin_of (Fin (1 # 5)) = Some "0.0-0.2"%string /\
  bin_of (Fin (3 # 2)) = None /\
  bin_of NaN = None.
Proof. repeat split. Qed.

Lemma plotKernel_cats_row (full_matrix : list (list float)) (ids : list string)
    (focal : string) (cats : list (option string)) :
  plotKernel_cats full_matrix ids focal = Some cats ->
  exists k row,
    index ids focal = Some k /\ nth_error full_matrix k = Some row /\
    cats = map bin_of row.
Proof.
  unfold plotKernel_cats. intros H.
  destruct (index ids focal) as [k|] eqn:Hk; [|discriminate].
  rewrite nth_error_map in H.
  destruct (nth_error full_matrix k) as [row|] eqn:Hrow; [|discriminate].
  exists k, row. split; [reflexivity|]. split; [exact Hrow|].
  assert (Hlen : (S (List.length labs) =? List.length (map number EQbins))%nat = true)
    by reflexivity.
  cbn [option_map] in H. unfold cut in H. rewrite Hlen in H. injection H as <-.
  now rewrite map_map.
Qed.







End Weights.

(** ** The loops of the notebooks

    Each loop or comprehension iterates over a collection; the number of
    iterations is the length of that collection.  The collections are: the
    rows of the [pumps] table (or names taken from them), short lists written
    in the source, and, for the comprehension that renumbers [deaths['Id']],
    [range(len(deaths['Id']))]. *)

Module Loops.
Import Py.

(** [range(start, stop, step)] for a positive [step]. *)
Fixpoint range_from (n start step : nat) : list nat :=
  match n with
  | O => []
  | S n' => start :: range_from n' (start + step) step
  end.

Definition range3 (start stop step : nat) : list nat :=
  range_from ((stop - start + step - 1) / step) start step.

(** [plt.subplots(rows, cols)] returns a grid of axes; [axes.flat] runs through
    them.  The axes are numbered in that order. *)
Definition axes_flat (rows cols : nat) : list nat := seq 0 (rows * cols).

(** [zip(a, b)] *)
Definition zip {A B : Type} (a : list A) (b : list B) : list (A * B) :=
  combine a b.

Definition fList : list string :=
  ["triangular"; "quadratic"; "uniform"; "gaussian"]%string.

Definition bList : list nat := range3 250 450 50.

(** The number of iterations of [for x in collection]. *)
Definition iterations {A : Type} (collection : list A) : nat :=
  List.length collection.

(** A [deaths] table of 250 locations: the notebook finds [Id == 249] in it
    after the renumbering. *)
Definition deaths250 : Frame.DataFrame Frame.Sample.shape :=
  [ ("Id"%string, repeat (Frame.VInt 0) 250);
    ("Count"%string, repeat (Frame.VInt 1) 250);
    ("geometry"%string,
     map (fun i => Frame.VGeom (Frame.Sample.Pt (529000 + Z.of_nat i) 181000))
         (seq 0 250)) ].

(** C8, as first stated, fails: on the 250 rows of [deaths250] the
    comprehension iterates 250 times. *)
Lemma id_comprehension_exceeds_20 :
  ~ (forall (deaths : Frame.DataFrame Frame.Sample.shape) r,
        Frame.id_range deaths = Some r -> iterations r <= 20).
Proof.
  intros H.
  specialize (H deaths250 (range 250) eq_refl).
  vm_compute in H. lia.
Qed.

End Loops.

(** ** Buffers around points *)

Module Buffer.

Local Open Scope R_scope.

Definition point : Type := (R * R)%type.

Definition distance (p q : point) : R :=
  sqrt ((fst p - fst q) * (fst p - fst q) + (snd p - snd q) * (snd p - snd q)).

(** The angle between two neighbouring vertices of a buffer ring: a quarter
    turn is cut into [resolution] segments. *)
Definition quantum (resolution : nat) : R := PI / (2 * INR resolution).

Definition angle (resolution k : nat) : R := - (INR k * quantum resolution).

Definition vertex (c : point) (d : R) (resolution k : nat) : point :=
  (fst c + d * cos (angle resolution k), snd c + d * sin (angle resolution k)).

(** Modelled from the spec: shapely's [buffer], which the notebooks only call,
    is missing from the sources.  The spec's buffer is a polygon that
    represents the points within a fixed distance of a geometry; the notebooks
    quote shapely's manual (an approximate representation of all points
    within a given distance) and name the [resolution] argument that sets the
    precision.  For a point that polygon is the ring of [4 * resolution]
    vertices on the circle of radius [d] around it, starting east of the
    point and running clockwise. *)
Definition buffer (c : point) (d : R) (resolution : nat) : list point :=
  map (vertex c d resolution) (seq 0 (4 * resolution)).

(** The area of a polygon from its ring (shoelace formula): half the absolute
    value of the sum of the cross products of neighbouring vertices, the last
    one paired with the first. *)
Definition cross (p q : point) : R := fst p * snd q - fst q * snd p.

Fixpoint cross_sum (first : point) (ring : list point) : R :=
  match ring with
  | [] => 0
  | p :: rest =>
      match rest with
      | [] => cross p first
      | q :: _ => cross p q + cross_sum first rest
      end
  end.

Definition area (ring : list point) : R :=
  match ring with
  | [] => 0
  | p :: _ => Rabs (cross_sum p ring) / 2
  end.

(** The points of a convex polygon: its vertices and everything on a segment
    between two of its points. *)
Inductive covers (ring : list point) : point -> Prop :=
| covers_vertex v : In v ring -> covers ring v
| covers_segment p q t :
    covers ring p -> covers ring q -> 0 <= t <= 1 ->
    covers ring ((1 - t) * fst p + t * fst q, (1 - t) * snd p + t * snd q).

(** [pumps.buffer(200)] leaves [resolution] at shapely's default. *)
Definition default_resolution : nat := 16.

Definition pumps_buffer (pump : point) : list point :=
  buffer pump 200 default_resolution.

Section Ring.

Variables (c : point) (d : R) (n : nat).
Hypothesis n_pos : (1 <= n)%nat.

Let v := vertex c d n.

Lemma INR_n_pos : 0 < INR n.
Proof. apply lt_0_INR. lia. Qed.

Lemma quantum_pos : 0 < quantum n.
Proof.
  unfold quantum. pose proof INR_n_pos. pose proof PI_RGT_0.
  apply Rdiv_lt_0_compat; lra.
Qed.

Lemma quantum_le : quantum n <= PI / 2.
Proof.
  unfold quantum. pose proof PI_RGT_0.
  assert (1 <= INR n) by (change 1 with (INR 1); apply le_INR; exact n_pos).
  unfold Rdiv. apply Rmult_le_compat_l; [lra|].
  apply Rinv_le_contravar; lra.
Qed.

Lemma angle_succ (k : nat) : angle n (S k) = angle n k - quantum n.
Proof. unfold angle. rewrite S_INR. ring. Qed.

Lemma angle_full : angle n (4 * n) = - (2 * PI).
Proof.
  unfold angle, quantum. rewrite mult_INR. simpl INR.
  pose proof INR_n_pos. field. lra.
Qed.

Lemma vertex_full : v (4 * n) = v 0.
Proof.
  unfold v, vertex. rewrite angle_full. unfold angle. simpl INR.
  rewrite Rmult_0_l, Ropp_0, cos_neg, sin_neg, cos_2PI, sin_2PI, cos_0, sin_0.
  f_equal; ring.
Qed.

Definition moment (k : nat) : R :=
  fst c * sin (angle n k) - snd c * cos (angle n k).

Lemma cross_consecutive (k : nat) :
  cross (v k) (v (S k))
  = d * (moment (S k) - moment k) - d * d * sin (quantum n).
Proof.
  unfold v, vertex, cross, moment. cbn [fst snd].
  rewrite angle_succ.
  rewrite sin_minus, cos_minus.
  pose proof (sin2_cos2 (angle n k)) as H. unfold Rsqr in H.
  set (s := sin (angle n k)) in *. set (co := cos (angle n k)) in *.
  set (sq := sin (quantum n)). set (cq := cos (quantum n)).
  replace (d * (fst c * (s * cq - co * sq) - snd c * (co * cq + s * sq) - (fst c * s - snd c * co)) - d * d * sq)
    with (d * (fst c * (s * cq - co * sq) - snd c * (co * cq + s * sq) - (fst c * s - snd c * co)) - d * d * sq * (s * s + co * co))
    by (rewrite H; ring).
  ring.
Qed.

Lemma cross_sum_cons (first p q : point) (rest : list point) :
  cross_sum first (p :: q :: rest) = cross p q + cross_sum first (q :: rest).
Proof. reflexivity. Qed.

Lemma cross_sum_seq (first : point) (m a : nat) :
  cross_sum first (map v (seq a (S m)))
  = d * (moment (a + m) - moment a) - INR m * (d * d * sin (quantum n))
    + cross (v (a + m)) first.
Proof.
  revert a. induction m as [|m IH]; intros a.
  - cbn. rewrite Nat.add_0_r. ring.
  - replace (map v (seq a (S (S m))))
      with (v a :: v (S a) :: map v (seq (S (S a)) m)) by reflexivity.
    rewrite cross_sum_cons.
    replace (v (S a) :: map v (seq (S (S a)) m))
      with (map v (seq (S a) (S m))) by reflexivity.
    rewrite IH, cross_consecutive.
    replace (S a + m)%nat with (a + S m)%nat by lia.
    rewrite (S_INR m). ring.
Qed.

Lemma moment_full : moment (4 * n) = moment 0.
Proof.
  unfold moment. rewrite angle_full. unfold angle. simpl INR.
  rewrite Rmult_0_l, Ropp_0, cos_neg, sin_neg, cos_2PI, sin_2PI, cos_0, sin_0.
  ring.
Qed.

Lemma buffer_cross_sum :
  cross_sum (v 0) (buffer c d n) = - (INR (4 * n) * (d * d * sin (quantum n))).
Proof.
  unfold buffer. fold v.
  destruct (4 * n)%nat as [|m] eqn:E; [lia|].
  rewrite cross_sum_seq. cbn [Nat.add].
  rewrite <- vertex_full, E, cross_consecutive, <- E, moment_full, E.
  rewrite (S_INR m). ring.
Qed.

Lemma sin_quantum_pos : 0 < sin (quantum n).
Proof.
  pose proof quantum_pos. pose proof quantum_le. pose proof PI_RGT_0.
  apply sin_gt_0; lra.
Qed.

Lemma area_buffer :
  area (buffer c d n) = 2 * INR n * (d * d) * sin (quantum n).
Proof.
  pose proof buffer_cross_sum as H.
  unfold area. unfold buffer in H |- *. fold v in H |- *.
  destruct (4 * n)%nat as [|m] eqn:E; [lia|].
  change (map v (seq 0 (S m))) with (v 0%nat :: map v (seq 1 m)) in H |- *.
  lazy iota beta.
  rewrite H, Rabs_Ropp, Rabs_pos_eq.
  - rewrite <- E, mult_INR. simpl INR. lra.
  - pose proof sin_quantum_pos. pose proof (pos_INR (S m)).
    apply Rmult_le_pos; [assumption|].
    apply Rmult_le_pos; [nra | lra].
Qed.

Lemma area_buffer_lt_disc : d <> 0 -> area (buffer c d n) < PI * (d * d).
Proof.
  intros Hd. rewrite area_buffer.
  pose proof (sin_lt_x (quantum n) quantum_pos) as Hsin.
  pose proof INR_n_pos as Hn.
  assert (Hdd : 0 < d * d) by nra.
  assert (Hq : 2 * INR n * quantum n = PI) by (unfold quantum; field; lra).
  rewrite <- Hq.
  replace (2 * INR n * quantum n * (d * d)) with (2 * INR n * (d * d) * quantum n) by ring.
  apply Rmult_lt_compat_l; [|exact Hsin].
  apply Rmult_lt_0_compat; [lra | exact Hdd].
Qed.

Lemma distance_sq (p : point) (r : R) :
  0 <= r ->
  (fst c - fst p) * (fst c - fst p) + (snd c - snd p) * (snd c - snd p) <= r * r ->
  distance c p <= r.
Proof.
  intros Hr H. unfold distance.
  rewrite <- (sqrt_square r Hr). apply sqrt_le_1_alt. exact H.
Qed.

Lemma vertex_distance (k : nat) : 0 <= d -> distance c (v k) = d.
Proof.
  intros Hd. unfold distance, v, vertex. cbn [fst snd].
  pose proof (sin2_cos2 (angle n k)) as H. unfold Rsqr in H.
  replace ((fst c - (fst c + d * cos (angle n k))) * (fst c - (fst c + d * cos (angle n k)))
           + (snd c - (snd c + d * sin (angle n k))) * (snd c - (snd c + d * sin (angle n k))))
    with (d * d * (sin (angle n k) * sin (angle n k) + cos (angle n k) * cos (angle n k)))
    by ring.
  rewrite H, Rmult_1_r. now apply sqrt_square.
Qed.

Lemma covers_within (p : point) :
  0 <= d -> covers (buffer c d n) p ->
  (fst c - fst p) * (fst c - fst p) + (snd c - snd p) * (snd c - snd p) <= d * d.
Proof.
  intros Hd Hp. induction Hp as [w Hw | p q t _ IHp _ IHq Ht].
  - unfold buffer in Hw. apply in_map_iff in Hw. destruct Hw as (k & <- & _).
    unfold vertex. cbn [fst snd].
    pose proof (sin2_cos2 (angle n k)) as H. unfold Rsqr in H.
    replace ((fst c - (fst c + d * cos (angle n k))) * (fst c - (fst c + d * cos (angle n k)))
             + (snd c - (snd c + d * sin (angle n k))) * (snd c - (snd c + d * sin (angle n k))))
      with (d * d * (sin (angle n k) * sin (angle n k) + cos (angle n k) * cos (angle n k)))
      by ring.
    rewrite H. lra.
  - cbn [fst snd].
    set (a1 := fst c - fst p) in *. set (a2 := snd c - snd p) in *.
    set (b1 := fst c - fst q) in *. set (b2 := snd c - snd q) in *.
    replace (fst c - ((1 - t) * fst p + t * fst q)) with ((1 - t) * a1 + t * b1)
      by (unfold a1, b1; ring).
    replace (snd c - ((1 - t) * snd p + t * snd q)) with ((1 - t) * a2 + t * b2)
      by (unfold a2, b2; ring).
    assert (Hmix : ((1 - t) * a1 + t * b1) * ((1 - t) * a1 + t * b1)
                   + ((1 - t) * a2 + t * b2) * ((1 - t) * a2 + t * b2)
                   = (1 - t) * (a1 * a1 + a2 * a2) + t * (b1 * b1 + b2 * b2)
                     - t * (1 - t) * ((a1 - b1) * (a1 - b1) + (a2 - b2) * (a2 - b2)))
      by ring.
    rewrite Hmix. destruct Ht as [Ht0 Ht1].
    assert (Hgap : 0 <= t * (1 - t) * ((a1 - b1) * (a1 - b1) + (a2 - b2) * (a2 - b2))).
    { pose proof (Rle_0_sqr (a1 - b1)) as H1. pose proof (Rle_0_sqr (a2 - b2)) as H2.
      unfold Rsqr in H1, H2.
      apply Rmult_le_pos; [apply Rmult_le_pos; lra | lra]. }
    assert (Hp' : 0 <= (1 - t) * (d * d - (a1 * a1 + a2 * a2)))
      by (apply Rmult_le_pos; lra).
    assert (Hq' : 0 <= t * (d * d - (b1 * b1 + b2 * b2)))
      by (apply Rmult_le_pos; lra).
    lra.
Qed.

End Ring.

(** C4 (as amended).  The polygon [buffer] returns for a pump and a distance
    [d > 0] approximates the disc of radius [d] from inside: its vertices
    lie at distance exactly [d] from the pump, every point of the polygon is
    at distance at most [d], and its area is
    [2 * resolution * d^2 * sin (PI / (2 * resolution))], which is less than
    the area [PI * d^2] of the circle. *)
Theorem buffer_inscribed (c : point) (d : R) (resolution : nat) :
  0 < d -> (1 <= resolution)%nat ->
  (forall v, In v (buffer c d resolution) -> distance c v = d) /\
  (forall p, covers (buffer c d resolution) p -> distance c p <= d) /\
  area (buffer c d resolution)
  = 2 * INR resolution * (d * d) * sin (PI / (2 * INR resolution)) /\
  area (buffer c d resolution) < PI * (d * d).
Proof.
  intros Hd Hn. repeat split.
  - intros v Hv. unfold buffer in Hv. apply in_map_iff in Hv.
    destruct Hv as (k & <- & _). apply vertex_distance. lra.
  - intros p Hp. apply distance_sq; [lra|].
    apply (covers_within c d resolution); [lra | exact Hp].
  - now apply area_buffer.
  - apply area_buffer_lt_disc; [exact Hn | lra].
Qed.

(** At the default resolution the ring has 64 vertices. *)
Lemma pumps_buffer_vertices (pump : point) :
  List.length (pumps_buffer pump) = 64%nat.
Proof.
  unfold pumps_buffer, buffer. now rewrite length_map, length_seq.
Qed.

(** The Broad St pump, in metres on the British National Grid. *)
Definition broad_st : point := (529396, 181025).

(** C4, run: the 200 m buffer of the Broad St pump at the default resolution. *)
Lemma buffer_inscribed_broad_st :
  0 < 200 /\ (1 <= default_resolution)%nat /\
  (forall v, In v (pumps_buffer broad_st) -> distance broad_st v = 200) /\
  (forall p, covers (pumps_buffer broad_st) p -> distance broad_st p <= 200) /\
  area (pumps_buffer broad_st)
  = 2 * INR default_resolution * (200 * 200)
    * sin (PI / (2 * INR default_resolution)) /\
  area (pumps_buffer broad_st) < PI * (200 * 200).
Proof.
  assert (Hd : 0 < 200) by lra.
  assert (Hn : (1 <= default_resolution)%nat) by (unfold default_resolution; lia).
  split; [exact Hd|]. split; [exact Hn|].
  exact (buffer_inscribed broad_st 200 default_resolution Hd Hn).
Defined.

(** C4, as first stated, fails: the area of the buffer polygon is not the area
    of the circle of radius 200. *)
Lemma buffer_area_not_circle :
  area (pumps_buffer broad_st) <> PI * (200 * 200).
Proof.
  assert (H : area (pumps_buffer broad_st) < PI * (200 * 200)).
  { apply area_buffer_lt_disc; [unfold default_resolution; lia | lra]. }
  lra.
Qed.

End Buffer.

(** ** Voronoi.ipynb: Thiessen polygons around the pumps *)

Module Voronoi.
Import Py.

Local Open Scope Q_scope.

Definition point : Type := (Q * Q)%type.

Definition dist2 (p q : point) : Q :=
  (fst p - fst q) * (fst p - fst q) + (snd p - snd q) * (snd p - snd q).

(** [points = np.vstack([pumps['x'], pumps['y']]).T]: one row per pump. *)
Definition vstack_T (xs ys : list Q) : list point := combine xs ys.

(** [p] is closer to seed number [i] than to every other seed. *)
Definition closer_to (seeds : list point) (i : nat) (p : point) : bool :=
  match nth_error seeds i with
  | Some s =>
      forallb (fun j =>
                 (j =? i)%nat ||
                 match nth_error seeds j with
                 | Some s' => Qltb (dist2 p s) (dist2 p s')
                 | None => true
                 end)
              (seq 0 (List.length seeds))
  | None => false
  end.

(** The bounding box of the seeds: (min x, min y, max x, max y). *)
Definition grow (box : Q * Q * Q * Q) (s : point) : Q * Q * Q * Q :=
  let '(x0, y0, x1, y1) := box in
  (Qmin x0 (fst s), Qmin y0 (snd s), Qmax x1 (fst s), Qmax y1 (snd s)).

Definition bounding_box (seeds : list point) : option (Q * Q * Q * Q) :=
  match seeds with
  | [] => None
  | s :: rest => Some (fold_left grow rest (fst s, snd s, fst s, snd s))
  end.

Definition inside_box (box : option (Q * Q * Q * Q)) (p : point) : bool :=
  match box with
  | Some (x0, y0, x1, y1) =>
      Qltb x0 (fst p) && Qltb (fst p) x1 && Qltb y0 (snd p) && Qltb (snd p) y1
  | None => false
  end.

(** The [clip] argument of [voronoi_frames]: the default ['extent'] cuts the
    diagram to the bounding box of the points, ['none'] does not cut it. *)
Inductive clip : Type :=
| Extent
| NoClip.

Section Frames.

(** Without clipping, a region that reaches to infinity is closed off far
    from the points; [far i] is the part of the plane in which region [i] is
    kept. *)
Variable far : nat -> point -> bool.

(** Modelled from the spec: libpysal's [voronoi_frames], which the notebooks
    only call, is missing from the sources.  The spec's Voronoi polygon is the
    region of the plane closer to one seed point than to any other seed
    point; [Voronoi.ipynb] adds that with the default clip the extent of the
    diagram is limited to the bounding box of the points.  [within_region]
    tells whether the point [p] is within region [i]: in its interior, as the
    [within] relation of a spatial join asks. *)
Definition within_region (c : clip) (seeds : list point) (i : nat) (p : point)
    : bool :=
  closer_to seeds i p &&
  match c with
  | Extent => inside_box (bounding_box seeds) p
  | NoClip => far i p
  end.

(** [regions_df, vertices_df = voronoi_frames(points, clip=...)]: one region
    per point, in the order of the points. *)
Definition voronoi_frames (seeds : list point) (c : clip)
    : list (point -> bool) :=
  map (within_region c seeds) (seq 0 (List.length seeds)).

(** The regions a point is within. *)
Definition regions_of (seeds : list point) (c : clip) (p : point) : list nat :=
  filter (fun i => within_region c seeds i p) (seq 0 (List.length seeds)).

Lemma closer_to_spec (seeds : list point) (i : nat) (p : point) :
  closer_to seeds i p = true <->
  exists s, nth_error seeds i = Some s /\
            forall j s', j <> i -> nth_error seeds j = Some s' ->
                         dist2 p s < dist2 p s'.
Proof.
  unfold closer_to. destruct (nth_error seeds i) as [s|] eqn:Hi.
  - rewrite forallb_forall. split.
    + intros H. exists s. split; [reflexivity|].
      intros j s' Hj Hs'.
      assert (Hin : In j (seq 0 (List.length seeds))).
      { apply in_seq. split; [lia|]. simpl.
        apply (nth_error_Some seeds j). congruence. }
      specialize (H j Hin). rewrite Hs' in H.
      apply orb_true_iff in H. destruct H as [H|H].
      * apply Nat.eqb_eq in H. contradiction.
      * now apply Qltb_lt.
    + intros (s0 & [= <-] & H) j _.
      destruct (Nat.eqb_spec j i) as [->|Hne]; [reflexivity|]. simpl.
      destruct (nth_error seeds j) as [s'|] eqn:Hj; [|reflexivity].
      apply Qltb_lt. apply (H j); assumption.
  - split; [discriminate | intros (s & [=] & _)].
Qed.

Lemma closer_to_unique (seeds : list point) (i j : nat) (p : point) :
  i <> j -> closer_to seeds i p = true -> closer_to seeds j p = false.
Proof.
  intros Hne Hi. destruct (closer_to seeds j p) eqn:Hj; [|reflexivity].
  apply closer_to_spec in Hi. apply closer_to_spec in Hj.
  destruct Hi as (si & Hsi & Hi). destruct Hj as (sj & Hsj & Hj).
  pose proof (Hi j sj (not_eq_sym Hne) Hsj).
  pose proof (Hj i si Hne Hsi).
  lra.
Qed.

Lemma filter_none (f : nat -> bool) (l : list nat) :
  (forall j, In j l -> f j = false) -> filter f l = [].
Proof.
  induction l as [|a l IH]; intros H; simpl; [reflexivity|].
  rewrite (H a (or_introl eq_refl)). apply IH.
  intros j Hj. apply H. now right.
Qed.

Lemma filter_at_most_one (f : nat -> bool) (l : list nat) :
  NoDup l ->
  (forall i j, i <> j -> f i = true -> f j = false) ->
  (List.length (filter f l) <= 1)%nat.
Proof.
  intros Hnd Hexcl. induction Hnd as [|a l Ha Hnd IH]; simpl; [lia|].
  destruct (f a) eqn:Hfa; [|exact IH].
  rewrite filter_none; [simpl; lia|].
  intros j Hj. apply (Hexcl a j); [|exact Hfa]. intros ->. contradiction.
Qed.

Lemma within_region_unique (c : clip) (seeds : list point) (i j : nat) (p : point) :
  i <> j ->
  within_region c seeds i p = true -> within_region c seeds j p = false.
Proof.
  unfold within_region. intros Hne Hi.
  apply andb_true_iff in Hi. destruct Hi as [Hi _].
  now rewrite (closer_to_unique seeds i j p Hne Hi).
Qed.

End Frames.

(** C2 (as amended).  Every region polygon [voronoi_frames] returns for the
    pump coordinates lies in the part of the plane closer to its own seed
    than to any other seed; with the default clip it is that part cut to the
    bounding box of the seeds.  Consequently two distinct regions have no
    interior point in common, and every death point is within at most one
    region. *)
Theorem voronoi_regions_disjoint (far : nat -> point -> bool)
    (seeds : list point) (c : clip) (p : point) :
  (forall i,
      within_region far c seeds i p = true ->
      exists s, nth_error seeds i = Some s /\
                forall j s', j <> i -> nth_error seeds j = Some s' ->
                             dist2 p s < dist2 p s') /\
  (forall i,
      within_region far Extent seeds i p
      = closer_to seeds i p && inside_box (bounding_box seeds) p) /\
  (forall i j, i <> j ->
      within_region far c seeds i p = true ->
      within_region far c seeds j p = false) /\
  (List.length (regions_of far seeds c p) <= 1)%nat /\
  (List.length (filter (fun region => region p) (voronoi_frames far seeds c))
   <= 1)%nat.
Proof.
  assert (Hone : (List.length (regions_of far seeds c p) <= 1)%nat).
  { unfold regions_of. apply filter_at_most_one; [apply seq_NoDup|].
    intros i j. apply within_region_unique. }
  repeat split.
  - intros i Hi. unfold within_region in Hi.
    apply andb_true_iff in Hi. now apply closer_to_spec.
  - intros i j. apply within_region_unique.
  - exact Hone.
  - unfold voronoi_frames.
    rewrite filter_map_swap, length_map. exact Hone.
Qed.

(** Three pumps, and a house to the west of all of them. *)
Definition pump_seeds : list point :=
  [ (529396 # 1, 181025 # 1); (529593 # 1, 180661 # 1); (529193 # 1, 181163 # 1) ].

Definition west_house : point := (529000 # 1, 181200 # 1).

Definition keep_all (i : nat) (p : point) : bool := true.

(** A house between the pumps is within the region of the pump nearest to it,
    the first, and within no other region. *)
Example house_between_pumps :
  regions_of keep_all pump_seeds Extent (529400 # 1, 181000 # 1) = [0%nat] /\
  regions_of keep_all pump_seeds NoClip (529400 # 1, 181000 # 1) = [0%nat] /\
  regions_of keep_all pump_seeds Extent west_house = [] /\
  regions_of keep_all pump_seeds NoClip west_house = [2%nat].
Proof. repeat split. Qed.

(** C2, as first stated, fails: [west_house] is closer to the third pump than
    to the other two, but with the default clip it is not within the third
    region, which ends at the bounding box of the pumps. *)
Lemma clipped_region_is_not_the_whole_cell :
  ~ (forall (seeds : list point) (c : clip) (i : nat) (p : point),
        within_region keep_all c seeds i p = closer_to seeds i p).
Proof.
  intros H.
  specialize (H pump_seeds Extent 2%nat west_house).
  vm_compute in H. discriminate H.
Qed.

End Voronoi.

(** ** SpatialJoins.ipynb: what [gpd.sjoin] returns *)

Module SpatialJoin.
Import Notebook.

Inductive op : Type :=
| within
| contains
| intersects.

Section Sjoin.

(** Geometries and attribute rows are whatever the two tables hold; the
    spatial predicates are those of the geometry library. *)
Variables (Geom Attrs : Type).
Variable holds : op -> Geom -> Geom -> bool.

(** A row of a GeoDataFrame: its index label, its attribute columns, and its
    geometry. *)
Record feature : Type := mkFeature
  { index : nat;
    attributes : Attrs;
    geometry : Geom }.

(** A row of the joined table: the index and attributes of the left row, the
    [index_right] column and the attributes of the right row (missing where
    a row found no partner), and the one geometry the join keeps. *)
Record joined : Type := mkJoined
  { index_left : option nat;
    attributes_left : option Attrs;
    index_right : option nat;
    attributes_right : option Attrs;
    kept_geometry : Geom }.

(** The pairs of rows the predicate relates, left rows in order and, for each,
    its partners in the order of the right table. *)
Definition partners (o : op) (l : feature) (right_df : list feature)
    : list feature :=
  filter (fun r => holds o (geometry l) (geometry r)) right_df.

Definition matches (left_df right_df : list feature) (o : op)
    : list (feature * feature) :=
  flat_map (fun l => map (fun r => (l, r)) (partners o l right_df)) left_df.

Definition combine_rows (keep_right : bool) (lr : feature * feature) : joined :=
  let (l, r) := lr in
  mkJoined (Some (index l)) (Some (attributes l))
           (Some (index r)) (Some (attributes r))
           (if keep_right then geometry r else geometry l).

Definition left_only (l : feature) : joined :=
  mkJoined (Some (index l)) (Some (attributes l)) None None (geometry l).

Definition right_only (r : feature) : joined :=
  mkJoined None None (Some (index r)) (Some (attributes r)) (geometry r).

(** Modelled from the spec: geopandas' [sjoin], which the notebooks only call,
    is missing from the sources.  The spec's spatial join transfers
    attributes between two geometry collections based on a spatial predicate
    rather than a key equality; [SpatialJoins.ipynb] adds the join types:
    [inner] keeps the pairs the predicate relates, with the left geometry;
    [left] keeps every left row, [right] every right row with the right
    geometry.  The order of the rows is geopandas' own and is no part of
    what is stated about the join. *)
Definition sjoin (left_df right_df : list feature) (h : how) (o : op)
    : list joined :=
  match h with
  | Inner => map (combine_rows false) (matches left_df right_df o)
  | Left =>
      flat_map (fun l =>
                  match partners o l right_df with
                  | [] => [left_only l]
                  | rs => map (fun r => combine_rows false (l, r)) rs
                  end) left_df
  | Right =>
      flat_map (fun r =>
                  match filter (fun l => holds o (geometry l) (geometry r)) left_df with
                  | [] => [right_only r]
                  | ls => map (fun l => combine_rows true (l, r)) ls
                  end) right_df
  end.

Lemma matches_spec (left_df right_df : list feature) (o : op) (l r : feature) :
  In (l, r) (matches left_df right_df o) <->
  In l left_df /\ In r right_df /\ holds o (geometry l) (geometry r) = true.
Proof.
  unfold matches, partners. rewrite in_flat_map. split.
  - intros (l' & Hl & Hin). apply in_map_iff in Hin.
    destruct Hin as (r' & [= <- <-] & Hr). apply filter_In in Hr. tauto.
  - intros (Hl & Hr & Hop). exists l. split; [exact Hl|].
    apply in_map. apply filter_In. tauto.
Qed.

(** The rows of a joined table that the pair of index labels [(i, j)]
    contributed. *)
Definition of_pair (i j : nat) (row : joined) : bool :=
  match index_left row, index_right row with
  | Some i', Some j' => (i' =? i) && (j' =? j)
  | _, _ => false
  end.

Lemma only_row (rows : list feature) (x : feature) :
  NoDup (map index rows) -> In x rows ->
  filter (fun y => index y =? index x) rows = [x].
Proof.
  induction rows as [|y rest IH]; intros Hnd Hin; [contradiction|].
  cbn [map] in Hnd. inversion Hnd as [|? ? Hnot Hrest]; subst.
  cbn [filter]. destruct Hin as [->|Hin].
  - rewrite Nat.eqb_refl. f_equal.
    clear - Hnot. induction rest as [|z rest IH]; [reflexivity|].
    cbn [filter map] in *. destruct (index z =? index x) eqn:E.
    + apply Nat.eqb_eq in E. exfalso. apply Hnot. left. exact E.
    + apply IH. intros H. apply Hnot. now right.
  - destruct (index y =? index x) eqn:E.
    + apply Nat.eqb_eq in E. exfalso. apply Hnot. rewrite E.
      now apply in_map.
    + now apply IH.
Qed.

Lemma filter_matches (a b : feature -> bool) (left_df right_df : list feature)
    (o : op) :
  filter (fun lr => a (fst lr) && b (snd lr)) (matches left_df right_df o)
  = flat_map (fun l => map (fun r => (l, r))
                           (filter b (partners o l right_df)))
             (filter a left_df).
Proof.
  unfold matches. induction left_df as [|l rest IH]; [reflexivity|].
  cbn [flat_map filter]. rewrite filter_app, IH.
  destruct (a l) eqn:Ea; cbn [flat_map]; f_equal.
  - generalize (partners o l right_df) as rs. intros rs.
    induction rs as [|r rs IHr]; [reflexivity|].
    cbn [map filter fst snd]. rewrite Ea. cbn [andb].
    destruct (b r); cbn [map]; now rewrite IHr.
  - generalize (partners o l right_df) as rs. intros rs.
    induction rs as [|r rs IHr]; [reflexivity|].
    cbn [map filter fst snd]. rewrite Ea. exact IHr.
Qed.

Lemma filter_partners (b : feature -> bool) (o : op) (l : feature)
    (right_df : list feature) :
  filter b (partners o l right_df) = partners o l (filter b right_df).
Proof.
  unfold partners. induction right_df as [|r rest IH]; [reflexivity|].
  cbn [filter].
  destruct (holds o (geometry l) (geometry r)) eqn:Eh, (b r) eqn:Eb;
    cbn [filter]; rewrite ?Eh, ?Eb, IH; reflexivity.
Qed.

Lemma filter_of_pair (i j : nat) (pairs : list (feature * feature)) :
  filter (of_pair i j) (map (combine_rows false) pairs)
  = map (combine_rows false)
        (filter (fun lr => (index (fst lr) =? i) && (index (snd lr) =? j)) pairs).
Proof.
  induction pairs as [|[l r] rest IH]; [reflexivity|].
  cbn [map filter]. rewrite IH.
  cbn [combine_rows of_pair index_left index_right fst snd].
  destruct ((index l =? i) && (index r =? j)); reflexivity.
Qed.

(** C1.  In the inner spatial join of two tables with distinct index labels,
    a pair of a left and a right row contributes a combined row if and only
    if the predicate holds between their two geometries, and then exactly
    one: the row with the index and the attributes of the left row, the
    index and the attributes of the right row, and the left geometry; the
    join has no other rows.  Whether a pair contributes depends on the two
    geometries alone: the values of the attribute columns are carried along
    and play no part in it. *)
Theorem sjoin_inner_by_predicate (left_df right_df : list feature) (o : op) :
  NoDup (map index left_df) -> NoDup (map index right_df) ->
  (forall l r,
      In l left_df -> In r right_df ->
      ((exists row,
           In row (sjoin left_df right_df Inner o) /\
           of_pair (index l) (index r) row = true)
       <-> holds o (geometry l) (geometry r) = true)) /\
  (forall l r,
      In l left_df -> In r right_df ->
      filter (of_pair (index l) (index r)) (sjoin left_df right_df Inner o)
      = if holds o (geometry l) (geometry r)
        then [mkJoined (Some (index l)) (Some (attributes l))
                       (Some (index r)) (Some (attributes r))
                       (geometry l)]
        else []) /\
  (forall row,
      In row (sjoin left_df right_df Inner o) ->
      exists l r,
        In l left_df /\ In r right_df /\
        holds o (geometry l) (geometry r) = true /\
        of_pair (index l) (index r) row = true) /\
  List.length (sjoin left_df right_df Inner o)
  = List.length (filter (fun lr => holds o (geometry (fst lr)) (geometry (snd lr)))
                        (list_prod left_df right_df)).
Proof.
  intros Hleft Hright.
  assert (Hpair : forall l r,
      In l left_df -> In r right_df ->
      filter (of_pair (index l) (index r)) (sjoin left_df right_df Inner o)
      = if holds o (geometry l) (geometry r)
        then [mkJoined (Some (index l)) (Some (attributes l))
                       (Some (index r)) (Some (attributes r))
                       (geometry l)]
        else []).
  { intros l r Hl Hr. cbn [sjoin].
    rewrite filter_of_pair.
    rewrite (filter_matches (fun x => index x =? index l)
                            (fun y => index y =? index r)).
    rewrite (only_row left_df l Hleft Hl). cbn [flat_map].
    rewrite filter_partners, (only_row right_df r Hright Hr), app_nil_r.
    unfold partners. cbn [filter].
    destruct (holds o (geometry l) (geometry r)); reflexivity. }
  split; [|split; [exact Hpair|split]].
  - intros l r Hl Hr. specialize (Hpair l r Hl Hr). split.
    + intros (row & Hin & Hof).
      assert (Hrow : In row (filter (of_pair (index l) (index r))
                               (sjoin left_df right_df Inner o)))
        by (apply filter_In; auto).
      rewrite Hpair in Hrow.
      destruct (holds o (geometry l) (geometry r)); [reflexivity|contradiction].
    + intros Hop. rewrite Hop in Hpair.
      eexists. apply filter_In. rewrite Hpair. left. reflexivity.
  - intros row. cbn [sjoin]. rewrite in_map_iff.
    intros ([l r] & <- & Hin). apply matches_spec in Hin.
    exists l, r. destruct Hin as (Hl & Hr & Hop).
    split; [exact Hl|]. split; [exact Hr|]. split; [exact Hop|].
    cbn [combine_rows of_pair index_left index_right].
    now rewrite !Nat.eqb_refl.
  - cbn [sjoin]. rewrite length_map. unfold matches, partners. clear.
    induction left_df as [|l rest IH]; [reflexivity|].
    cbn [flat_map list_prod]. rewrite filter_app, !length_app, IH. f_equal.
    rewrite length_map. clear.
    induction right_df as [|r rs IHr]; [reflexivity|].
    cbn [filter map fst snd].
    destruct (holds o (geometry l) (geometry r)); cbn [List.length];
      now rewrite IHr.
Qed.

End Sjoin.

Arguments mkFeature {Geom Attrs} index attributes geometry.
Arguments mkJoined {Geom Attrs} index_left attributes_left index_right
  attributes_right kept_geometry.
Arguments sjoin {Geom Attrs} holds left_df right_df h o.
Arguments of_pair {Geom Attrs} i j row.

(** *** Two deaths against two buffers

    Points and round buffers as in [Frame.Sample]; a point is within a
    buffer when it is closer to its centre than the radius. *)
Definition shape_holds (o : op) (a b : Frame.Sample.shape) : bool :=
  match o, a, b with
  | within, Frame.Sample.Pt x y, Frame.Sample.Round cx cy r
  | contains, Frame.Sample.Round cx cy r, Frame.Sample.Pt x y
  | intersects, Frame.Sample.Pt x y, Frame.Sample.Round cx cy r
  | intersects, Frame.Sample.Round cx cy r, Frame.Sample.Pt x y =>
      ((x - cx) * (x - cx) + (y - cy) * (y - cy) <? r * r)%Z
  | _, _, _ => false
  end.

(** Two rows of [deaths], with the [Count] column as attribute. *)
Definition two_deaths : list (feature Frame.Sample.shape string) :=
  [ mkFeature 0 "3" (Frame.Sample.Pt 529308 181031);
    mkFeature 1 "2" (Frame.Sample.Pt 529600 180700) ].

(** Two rows of [buffers], with the [name] column as attribute. *)
Definition two_buffers : list (feature Frame.Sample.shape string) :=
  [ mkFeature 0 "Broad St Pump" (Frame.Sample.Round 529396 181025 200);
    mkFeature 1 "Rupert St Pump" (Frame.Sample.Round 529593 180661 200) ].

(** C1, run: each of the two deaths is within one of the two buffers, and the
    join has the two rows. *)
Lemma sjoin_inner_by_predicate_two_deaths :
  NoDup (map (index Frame.Sample.shape string) two_deaths) /\
  NoDup (map (index Frame.Sample.shape string) two_buffers) /\
  sjoin shape_holds two_deaths two_buffers Notebook.Inner within
  = [ mkJoined (Some 0) (Some "3") (Some 0) (Some "Broad St Pump")
               (Frame.Sample.Pt 529308 181031);
      mkJoined (Some 1) (Some "2") (Some 1) (Some "Rupert St Pump")
               (Frame.Sample.Pt 529600 180700) ] /\
  List.length (sjoin shape_holds two_deaths two_buffers Notebook.Inner within)
  = List.length
      (filter (fun lr => shape_holds within
                           (geometry Frame.Sample.shape string (fst lr))
                           (geometry Frame.Sample.shape string (snd lr)))
              (list_prod two_deaths two_buffers)).
Proof.
  assert (Hd : NoDup (map (index Frame.Sample.shape string) two_deaths)).
  { cbn. repeat constructor; cbn; intuition discriminate. }
  assert (Hb : NoDup (map (index Frame.Sample.shape string) two_buffers)).
  { cbn. repeat constructor; cbn; intuition discriminate. }
  split; [exact Hd|]. split; [exact Hb|]. split; [reflexivity|].
  exact (proj2 (proj2 (proj2 (sjoin_inner_by_predicate Frame.Sample.shape string
                                shape_holds two_deaths two_buffers within Hd Hb)))).
Defined.

End SpatialJoin.

(** ** Relations.ipynb: the loops around the two helpers *)

Module RelationsLoops.
Import Py Relations.

Section Loops.

Variables (Point Polygon : Type).
Variable contains : Polygon -> Point -> bool.
Variable within : Point -> Polygon -> bool.
Variable overlaps : Polygon -> Polygon -> bool.

(** ['{0} is within the buffer of {1}'.format(a, b)] *)
Definition is_within_line (a b : string) : string :=
  (a ++ " is within the buffer of " ++ b)%string.

(** A [for] loop whose body prints: the lines of all iterations, in order.
    A body that hands a Series to a geometry method ends the run. *)
Fixpoint for_each {A : Type} (rows : list A) (body : A -> option (list string))
    : option (list string) :=
  match rows with
  | [] => Some []
  | row :: rest =>
      match body row with
      | Some out => option_map (fun later => out ++ later) (for_each rest body)
      | None => None
      end
  end.

Definition printed (run : option (list string)) : outcome :=
  match run with
  | Some lines => Printed lines
  | None => NotScalar
  end.

(** [focalPump.within(b)] on what [squeeze] returned. *)
Definition focal_within (focalPump : squeezed Point) (b : Polygon) : option bool :=
  match focalPump with
  | Scalar p => Some (within p b)
  | Series _ => None
  end.

(** [for i in pumps['buffer']: print(focalPump.within(i))] *)
Definition print_within (focalName : string)
    (pumps : GeoDataFrame Point Polygon) : outcome :=
  let focalPump := squeeze (map geometry (select_name focalName pumps)) in
  printed (for_each (map buffer pumps)
             (fun i => option_map (fun b => [str_bool b]) (focal_within focalPump i))).

(** The first formatted loop: [row['name']] comes first in the line. *)
Definition report_within_row_first (focalName : string)
    (pumps : GeoDataFrame Point Polygon) : outcome :=
  let focalPump := squeeze (map geometry (select_name focalName pumps)) in
  printed (for_each pumps
             (fun row =>
                option_map
                  (fun b : bool =>
                     if b then [is_within_line (name row) focalName] else [])
                  (focal_within focalPump (buffer row)))).

(** The second formatted loop: [focalName] comes first in the line. *)
Definition report_within_focal_first (focalName : string)
    (pumps : GeoDataFrame Point Polygon) : outcome :=
  let focalPump := squeeze (map geometry (select_name focalName pumps)) in
  printed (for_each pumps
             (fun row =>
                option_map
                  (fun b : bool =>
                     if b then [is_within_line focalName (name row)] else [])
                  (focal_within focalPump (buffer row)))).

(** *** What the loops print *)

Lemma for_each_total {A : Type} (rows : list A) (f : A -> list string) :
  for_each rows (fun r => Some (f r)) = Some (flat_map f rows).
Proof.
  induction rows as [|r rest IH]; simpl; [reflexivity|]. now rewrite IH.
Qed.

Lemma flat_map_if {A : Type} (test : A -> bool) (line : A -> string)
    (rows : list A) :
  flat_map (fun r => if test r then [line r] else []) rows
  = map line (filter test rows).
Proof.
  induction rows as [|r rest IH]; simpl; [reflexivity|].
  destruct (test r); simpl; now rewrite IH.
Qed.

Lemma flat_map_single {A : Type} (f : A -> string) (rows : list A) :
  flat_map (fun r => [f r]) rows = map f rows.
Proof.
  induction rows as [|r rest IH]; simpl; [reflexivity|]. now rewrite IH.
Qed.

Lemma count_true_flags (test : Polygon -> bool) (polys : list Polygon) :
  count_occ string_dec (map (fun b => str_bool (test b)) polys) "True"
  = List.length (filter test polys).
Proof.
  induction polys as [|b rest IH]; simpl; [reflexivity|].
  destruct (test b); simpl.
  - destruct (string_dec "True" "True"); [now rewrite IH | congruence].
  - destruct (string_dec "False" "True"); [discriminate | exact IH].
Qed.

Lemma once_selects_one (n : string) (pumps : GeoDataFrame Point Polygon) :
  count_occ string_dec (map name pumps) n = 1 ->
  exists row, select_name n pumps = [row] /\ In row pumps /\ name row = n.
Proof.
  intros Honce. rewrite <- select_name_length in Honce.
  destruct (select_name n pumps) as [|row [|row' rest]] eqn:Hsel;
    try discriminate Honce.
  exists row. split; [reflexivity|].
  apply (select_name_spec Point Polygon n pumps row). rewrite Hsel. now left.
Qed.

(** X1.  The three loops and the helper agree.  For a focal name that occurs once,
    and with [within] the converse of [contains] as in shapely, the two
    formatted loops print one line for each name that
    [countBuffersContaining] lists, the first with the row's name in front
    and the second with the focal name in front, and the plain loop prints
    one flag per row, [True] as often as there are such names. *)
Theorem within_loops_agree (focalName : string)
    (pumps : GeoDataFrame Point Polygon) :
  count_occ string_dec (map name pumps) focalName = 1 ->
  (forall p b, within p b = contains b p) ->
  exists names flags,
    countBuffersContaining contains focalName pumps
    = Printed (report focalName names) /\
    report_within_focal_first focalName pumps
    = Printed (map (fun n => is_within_line focalName n) names) /\
    report_within_row_first focalName pumps
    = Printed (map (fun n => is_within_line n focalName) names) /\
    print_within focalName pumps = Printed flags /\
    List.length flags = List.length pumps /\
    count_occ string_dec flags "True" = List.length names.
Proof.
  intros Honce Hdual.
  destruct (once_selects_one focalName pumps Honce) as (row & Hsel & _ & _).
  exists (map name (filter (fun r => contains (buffer r) (geometry row)) pumps)).
  exists (map (fun b => str_bool (within (geometry row) b)) (map buffer pumps)).
  assert (Hfilter : filter (fun r => within (geometry row) (buffer r)) pumps
                    = filter (fun r => contains (buffer r) (geometry row)) pumps).
  { apply filter_ext. intros r. apply Hdual. }
  unfold countBuffersContaining, report_within_focal_first,
    report_within_row_first, print_within.
  rewrite Hsel. cbn [map squeeze focal_within option_map].
  rewrite contained_loop_scalar, !for_each_total,
    !flat_map_if, flat_map_single, Hfilter. cbn [printed List.app].
  rewrite !map_map, !length_map.
  repeat split.
  rewrite <- (map_map buffer (fun b => str_bool (within (geometry row) b))).
  rewrite count_true_flags.
  rewrite <- Hfilter. clear.
  induction pumps as [|r rest IH]; simpl; [reflexivity|].
  destruct (within (geometry row) (buffer r)); simpl; now rewrite IH.
Qed.

Lemma report_length (pumpName : string) (names : list string) :
  List.length (report pumpName names) = S (List.length names).
Proof.
  unfold report. destruct names as [|a [|b rest]]; reflexivity.
Qed.

(** X2.  A pump whose own buffer contains it is always listed.  For a name that
    occurs once, if the buffer of that row contains the row's own point, then
    [countBuffersContaining] lists the pump itself, reports a count of at
    least one, and does not print the [No buffers contain] line. *)
Theorem countBuffersContaining_own_buffer (pumpName : string)
    (pumps : GeoDataFrame Point Polygon) :
  count_occ string_dec (map name pumps) pumpName = 1 ->
  (forall row, In row pumps -> name row = pumpName ->
               contains (buffer row) (geometry row) = true) ->
  exists names n,
    countBuffersContaining contains pumpName pumps
    = Printed (report pumpName names) /\
    In pumpName names /\
    reported_count (countBuffersContaining contains pumpName pumps) = Some n /\
    1 <= n /\
    countBuffersContaining contains pumpName pumps
    <> Printed [("No buffers contain " ++ pumpName)%string].
Proof.
  intros Honce Hown.
  destruct (once_selects_one pumpName pumps Honce) as (row & Hsel & Hin & Hname).
  set (names := map name (filter (fun r => contains (buffer r) (geometry row)) pumps)).
  assert (Hrun : countBuffersContaining contains pumpName pumps
                 = Printed (report pumpName names)).
  { unfold countBuffersContaining. rewrite Hsel. cbn [map squeeze].
    now rewrite contained_loop_scalar. }
  assert (Hlisted : In pumpName names).
  { unfold names. rewrite <- Hname. apply in_map. apply filter_In.
    split; [exact Hin|]. now apply Hown. }
  assert (Hpos : 1 <= List.length names).
  { destruct names; [contradiction | simpl; lia]. }
  exists names, (List.length names). repeat split; try assumption.
  - rewrite Hrun. apply report_leading_count.
  - rewrite Hrun. intros [= Hlines].
    apply (f_equal (@List.length string)) in Hlines.
    rewrite report_length in Hlines. simpl in Hlines. lia.
Qed.

(** X3.  When [countBuffersContaining] prints.  On an empty frame it prints the
    [No buffers contain] line whatever the name; on a non-empty frame a name
    that does not occur exactly once makes the loop call [contains] with a
    Series instead of a point.  Whatever the helper prints is one line more
    than the names it lists, and every listed name is a name of the frame. *)
Theorem countBuffersContaining_outcome (pumpName : string)
    (pumps : GeoDataFrame Point Polygon) :
  (pumps = [] ->
   countBuffersContaining contains pumpName pumps
   = Printed [("No buffers contain " ++ pumpName)%string]) /\
  (pumps <> [] ->
   count_occ string_dec (map name pumps) pumpName <> 1 ->
   countBuffersContaining contains pumpName pumps = NotScalar) /\
  (forall lines,
      countBuffersContaining contains pumpName pumps = Printed lines ->
      exists names,
        lines = report pumpName names /\
        List.length lines = S (List.length names) /\
        incl names (map name pumps)).
Proof.
  split; [|split].
  - intros ->. reflexivity.
  - intros Hne Hcount. rewrite <- select_name_length in Hcount.
    unfold countBuffersContaining.
    destruct (select_name pumpName pumps) as [|row [|row' rest]];
      cbn [map squeeze]; destruct pumps; try congruence; try reflexivity.
    simpl in Hcount. congruence.
  - intros lines. unfold countBuffersContaining.
    destruct (squeeze (map geometry (select_name pumpName pumps))) as [p|l].
    + rewrite contained_loop_scalar. intros [= <-].
      eexists. split; [reflexivity|]. split; [apply report_length|].
      cbn [List.app]. intros n Hn. apply in_map_iff in Hn.
      destruct Hn as (r & <- & Hr). apply in_map.
      apply filter_In in Hr. tauto.
    + destruct pumps as [|r rest]; cbn [contained_loop]; [|discriminate].
      intros [= <-]. exists []. repeat split. intros n [].
Qed.

(** X4.  When neither name occurs more than once in the frame, the order of
    the two names does not matter to [tidyBufferOverlaps], given that
    [overlaps] is symmetric, as shapely's is.  (With a repeated name the two
    orders hand [overlaps] a Series on different sides.) *)
Theorem tidyBufferOverlaps_symmetric (buff1 buff2 : string)
    (pumps : GeoDataFrame Point Polygon) :
  count_occ string_dec (map name pumps) buff1 <= 1 ->
  count_occ string_dec (map name pumps) buff2 <= 1 ->
  (forall a b, overlaps a b = overlaps b a) ->
  tidyBufferOverlaps overlaps buff1 buff2 pumps
  = tidyBufferOverlaps overlaps buff2 buff1 pumps.
Proof.
  intros H1 H2 Hsym. rewrite <- select_name_length in H1, H2.
  unfold tidyBufferOverlaps.
  destruct (select_name buff1 pumps) as [|a [|a' A]];
    destruct (select_name buff2 pumps) as [|b [|b' B]];
    simpl in H1, H2; try lia; cbn; try reflexivity.
  now rewrite Hsym.
Qed.

End Loops.

Arguments print_within {Point Polygon} within focalName pumps.
Arguments report_within_row_first {Point Polygon} within focalName pumps.
Arguments report_within_focal_first {Point Polygon} within focalName pumps.

(** [within] on the frame [Example.soho]: the converse of its [contains]. *)
Definition disc_within (p : Example.point) (d : Example.disc) : bool :=
  Example.disc_contains d p.

Lemma disc_overlaps_sym (a b : Example.disc) :
  Example.disc_overlaps a b = Example.disc_overlaps b a.
Proof.
  unfold Example.disc_overlaps, Example.dist2.
  f_equal; f_equal; ring.
Qed.

(** X1, run on [Example.soho] for [Broad St Pump]. *)
Lemma within_loops_agree_soho :
  count_occ string_dec (map name Example.soho) "Broad St Pump" = 1 /\
  (forall p b, disc_within p b = Example.disc_contains b p) /\
  exists names flags,
    countBuffersContaining Example.disc_contains "Broad St Pump" Example.soho
    = Printed (report "Broad St Pump" names) /\
    report_within_focal_first disc_within "Broad St Pump" Example.soho
    = Printed (map (fun n => is_within_line "Broad St Pump" n) names) /\
    report_within_row_first disc_within "Broad St Pump" Example.soho
    = Printed (map (fun n => is_within_line n "Broad St Pump") names) /\
    print_within disc_within "Broad St Pump" Example.soho = Printed flags /\
    List.length flags = List.length Example.soho /\
    count_occ string_dec flags "True" = List.length names.
Proof.
  assert (Honce : count_occ string_dec (map name Example.soho) "Broad St Pump" = 1)
    by reflexivity.
  assert (Hdual : forall p b, disc_within p b = Example.disc_contains b p)
    by reflexivity.
  split; [exact Honce|]. split; [exact Hdual|].
  exact (within_loops_agree _ _ Example.disc_contains disc_within
           "Broad St Pump" Example.soho Honce Hdual).
Defined.

Lemma soho_own_buffers (row : pump Example.point Example.disc) :
  In row Example.soho -> name row = "Broad St Pump" ->
  Example.disc_contains (buffer row) (geometry row) = true.
Proof.
  intros Hin _. cbn in Hin.
  repeat (destruct Hin as [<- | Hin]; [reflexivity|]). destruct Hin.
Defined.

(** X2, run on [Example.soho]: the buffer of [Broad St Pump] contains it. *)
Lemma countBuffersContaining_own_buffer_soho :
  count_occ string_dec (map name Example.soho) "Broad St Pump" = 1 /\
  exists names n,
    countBuffersContaining Example.disc_contains "Broad St Pump" Example.soho
    = Printed (report "Broad St Pump" names) /\
    In "Broad St Pump" names /\
    reported_count
      (countBuffersContaining Example.disc_contains "Broad St Pump" Example.soho)
    = Some n /\
    1 <= n /\
    countBuffersContaining Example.disc_contains "Broad St Pump" Example.soho
    <> Printed ["No buffers contain Broad St Pump"].
Proof.
  assert (Honce : count_occ string_dec (map name Example.soho) "Broad St Pump" = 1)
    by reflexivity.
  split; [exact Honce|].
  exact (countBuffersContaining_own_buffer _ _ Example.disc_contains
           "Broad St Pump" Example.soho Honce soho_own_buffers).
Defined.

(** X4, run on [Example.soho] for [Rupert St Pump] and [Warwick St Pump]. *)
Lemma tidyBufferOverlaps_symmetric_soho :
  count_occ string_dec (map name Example.soho) "Rupert St Pump" <= 1 /\
  count_occ string_dec (map name Example.soho) "Warwick St Pump" <= 1 /\
  (forall a b, Example.disc_overlaps a b = Example.disc_overlaps b a) /\
  tidyBufferOverlaps Example.disc_overlaps "Rupert St Pump" "Warwick St Pump"
    Example.soho
  = tidyBufferOverlaps Example.disc_overlaps "Warwick St Pump" "Rupert St Pump"
      Example.soho.
Proof.
  assert (H1 : count_occ string_dec (map name Example.soho) "Rupert St Pump" <= 1)
    by (vm_compute; lia).
  assert (H2 : count_occ string_dec (map name Example.soho) "Warwick St Pump" <= 1)
    by (vm_compute; lia).
  split; [exact H1|]. split; [exact H2|]. split; [exact disc_overlaps_sym|].
  exact (tidyBufferOverlaps_symmetric _ _ Example.disc_overlaps
           "Rupert St Pump" "Warwick St Pump" Example.soho H1 H2
           disc_overlaps_sym).
Defined.

End RelationsLoops.

(** ** SpatialJoins.ipynb: the tables the joins are made from *)

Module Tables.
Import Py Frame.

Section Derived.

Variable Geom : Type.
Variable buffer : Geom -> Q -> Geom.

(** A table as [gpd.read_file] returns it: every column has one value per
    row. *)
Definition all_of_length (n : nat) (df : Frame.DataFrame Geom) : Prop :=
  Forall (fun col => List.length (snd col) = n) df.

Definition well_formed (df : Frame.DataFrame Geom) : Prop :=
  all_of_length (len df) df.

(** [df.loc[:, mask]] with a boolean mask over the column labels. *)
Definition loc_columns (mask : string -> bool) (df : Frame.DataFrame Geom)
    : Frame.DataFrame Geom :=
  filter (fun col => mask (fst col)) df.

(** [df.rename(columns = {old: new})]: every column labelled [old] gets the
    label [new]; a table without such a column is returned as it is. *)
Definition rename (old new : string) (df : Frame.DataFrame Geom)
    : Frame.DataFrame Geom :=
  map (fun col => (if String.eqb (fst col) old then new else fst col, snd col)) df.

(** [buffers = pumps.loc[:, pumps.columns != 'geometry']] followed by
    [buffers = buffers.rename(columns = {'buffer':'geometry'})]. *)
Definition buffers_of (pumps : Frame.DataFrame Geom) : Frame.DataFrame Geom :=
  rename "buffer" "geometry"
    (loc_columns (fun c => negb (String.eqb c "geometry")) pumps).

(** *** Column assignment, again *)

Lemma getitem_columns (df : Frame.DataFrame Geom) (c : string) :
  getitem df c <> None <-> In c (columns df).
Proof.
  induction df as [|[c0 col0] rest IH]; simpl.
  - split; [congruence | tauto].
  - destruct (String.eqb_spec c0 c) as [->|Hne].
    + split; [auto | congruence].
    + rewrite IH. split; [auto | intros [H|H]; [contradiction | exact H]].
Qed.

Lemma columns_replace (df : Frame.DataFrame Geom) (c : string)
    (vals : list (Frame.value Geom)) :
  columns (replace_column Geom df c vals) = columns df.
Proof.
  unfold columns. induction df as [|[c0 col0] rest IH]; simpl; [reflexivity|].
  destruct (String.eqb c0 c); simpl; [reflexivity | now rewrite IH].
Qed.

Lemma len_replace (df : Frame.DataFrame Geom) (c : string)
    (vals : list (Frame.value Geom)) :
  List.length vals = len df -> len (replace_column Geom df c vals) = len df.
Proof.
  destruct df as [|[c0 col0] rest]; simpl; [reflexivity|].
  intros H. destruct (String.eqb c0 c); simpl; [exact H | reflexivity].
Qed.

Lemma replace_same (df : Frame.DataFrame Geom) (c : string)
    (vals : list (Frame.value Geom)) :
  getitem df c = Some vals -> replace_column Geom df c vals = df.
Proof.
  induction df as [|[c0 col0] rest IH]; simpl; [reflexivity|].
  destruct (String.eqb c0 c).
  - now intros [= ->].
  - intros H. now rewrite IH.
Qed.

Lemma replace_twice (df : Frame.DataFrame Geom) (c : string)
    (vals vals' : list (Frame.value Geom)) :
  replace_column Geom (replace_column Geom df c vals) c vals'
  = replace_column Geom df c vals'.
Proof.
  induction df as [|[c0 col0] rest IH]; simpl; [reflexivity|].
  destruct (String.eqb c0 c) eqn:E; simpl; rewrite E; [reflexivity|].
  now rewrite IH.
Qed.

Lemma all_of_length_getitem (n : nat) (df : Frame.DataFrame Geom) (c : string)
    (col : list (Frame.value Geom)) :
  all_of_length n df -> getitem df c = Some col -> List.length col = n.
Proof.
  intros Hwf. induction Hwf as [|[c0 col0] rest H0 _ IH]; simpl; [discriminate|].
  destruct (String.eqb c0 c); [intros [= <-]; exact H0 | exact IH].
Qed.

Lemma all_of_length_replace (n : nat) (df : Frame.DataFrame Geom) (c : string)
    (vals : list (Frame.value Geom)) :
  all_of_length n df -> List.length vals = n ->
  all_of_length n (replace_column Geom df c vals).
Proof.
  intros Hwf Hlen.
  induction Hwf as [|[c0 col0] rest H0 Hrest IH]; simpl; [constructor|].
  destruct (String.eqb c0 c); constructor; simpl; auto.
Qed.

Lemma well_formed_replace (df : Frame.DataFrame Geom) (c : string)
    (vals : list (Frame.value Geom)) :
  well_formed df -> List.length vals = len df ->
  well_formed (replace_column Geom df c vals).
Proof.
  intros Hwf Hlen. unfold well_formed. rewrite (len_replace df c vals Hlen).
  now apply all_of_length_replace.
Qed.

Definition numbers (n : nat) : list (Frame.value Geom) :=
  map (fun i => VInt (Z.of_nat i)) (seq 0 n).

Lemma numbers_NoDup (n : nat) : NoDup (numbers n).
Proof.
  unfold numbers. generalize 0 as a. induction n as [|n IH]; intros a; simpl.
  - constructor.
  - constructor; [|apply IH].
    intros Hin. apply in_map_iff in Hin. destruct Hin as (j & [= Hj] & Hin).
    apply Nat2Z.inj in Hj. subst j. apply in_seq in Hin. lia.
Qed.

Lemma numbers_length (n : nat) : List.length (numbers n) = n.
Proof. unfold numbers. now rewrite length_map, length_seq. Qed.

Lemma assign_ids_inv (deaths numbered : Frame.DataFrame Geom) :
  assign_ids deaths = Some numbered ->
  exists ids,
    getitem deaths "Id" = Some ids /\ List.length ids = len deaths /\
    numbered = replace_column Geom deaths "Id" (numbers (len deaths)).
Proof.
  unfold assign_ids, id_comprehension, id_range, range.
  destruct (getitem deaths "Id") as [ids|] eqn:Hids; [|discriminate].
  cbn [option_map]. fold (numbers (List.length ids)).
  unfold setitem. destruct deaths as [|col0 rest] eqn:Hd; [discriminate Hids|].
  rewrite <- Hd in *. rewrite numbers_length.
  destruct (Nat.eqb_spec (List.length ids) (len deaths)) as [Hlen|Hlen];
    [|discriminate].
  rewrite Hids. cbn [negb]. intros [= <-]. exists ids. now rewrite Hlen.
Qed.

Lemma assign_ids_runs (deaths : Frame.DataFrame Geom)
    (ids : list (Frame.value Geom)) :
  getitem deaths "Id" = Some ids -> List.length ids = len deaths ->
  assign_ids deaths
  = Some (replace_column Geom deaths "Id" (numbers (len deaths))).
Proof.
  intros Hids Hlen.
  unfold assign_ids, id_comprehension, id_range, range.
  rewrite Hids. cbn [option_map]. rewrite Hlen.
  fold (numbers (len deaths)).
  unfold setitem. destruct deaths as [|col0 rest] eqn:Hd; [discriminate Hids|].
  rewrite <- Hd in *. now rewrite numbers_length, Nat.eqb_refl, Hids.
Qed.

(** X5.  Numbering the rows.  On a table with one value per row in every column
    and an [Id] column, [deaths['Id'] = [i for i in range(len(deaths['Id']))]]
    succeeds; it keeps the column labels, their order and the number of rows,
    and the new [Id] column is [0 .. n-1], so no two rows share an [Id]. *)
Theorem assign_ids_numbers_rows (deaths : Frame.DataFrame Geom) :
  well_formed deaths -> In "Id" (columns deaths) ->
  exists numbered ids,
    assign_ids deaths = Some numbered /\
    columns numbered = columns deaths /\
    len numbered = len deaths /\
    well_formed numbered /\
    getitem numbered "Id" = Some ids /\
    ids = map (fun i => VInt (Z.of_nat i)) (seq 0 (len deaths)) /\
    NoDup ids.
Proof.
  intros Hwf Hin. apply getitem_columns in Hin.
  destruct (getitem deaths "Id") as [ids|] eqn:Hids; [clear Hin | congruence].
  pose proof (all_of_length_getitem _ _ _ _ Hwf Hids) as Hlen.
  exists (replace_column Geom deaths "Id" (numbers (len deaths))).
  exists (numbers (len deaths)).
  split; [now apply (assign_ids_runs deaths ids)|].
  split; [apply columns_replace|].
  split; [apply len_replace, numbers_length|].
  split; [apply well_formed_replace; [exact Hwf | apply numbers_length]|].
  split; [eapply getitem_replace_same; eassumption|].
  split; [reflexivity | apply numbers_NoDup].
Qed.

(** X6.  Numbering twice.  [deaths['Id'] = ...] raises [KeyError] exactly when a
    table with one value per row has no [Id] column, and running the cell
    again on its own result changes nothing. *)
Theorem assign_ids_again (deaths : Frame.DataFrame Geom) :
  (well_formed deaths ->
   (assign_ids deaths = None <-> ~ In "Id" (columns deaths))) /\
  (forall numbered,
      assign_ids deaths = Some numbered -> assign_ids numbered = Some numbered).
Proof.
  split.
  - intros Hwf. split.
    + intros Hnone Hin. apply getitem_columns in Hin.
      destruct (getitem deaths "Id") as [ids|] eqn:Hids; [|congruence].
      pose proof (all_of_length_getitem _ _ _ _ Hwf Hids) as Hlen.
      rewrite (assign_ids_runs deaths ids Hids Hlen) in Hnone. discriminate.
    + intros Hnot. unfold assign_ids, id_comprehension, id_range.
      destruct (getitem deaths "Id") eqn:Hids; [|reflexivity].
      exfalso. apply Hnot. apply getitem_columns. congruence.
  - intros numbered Hrun.
    destruct (assign_ids_inv deaths numbered Hrun) as (ids & Hids & Hlen & ->).
    pose proof (len_replace deaths "Id" (numbers (len deaths))
                  (numbers_length _)) as Hlen'.
    rewrite (assign_ids_runs _ (numbers (len deaths))).
    + now rewrite Hlen', replace_twice.
    + eapply getitem_replace_same; eassumption.
    + now rewrite numbers_length, Hlen'.
Qed.

(** *** The [buffer] column and the [buffers] table *)

Lemma assign_buffer_inv (pumps buffered : Frame.DataFrame Geom) :
  assign_buffer buffer pumps = Some buffered ->
  exists pts polys,
    getitem pumps "geometry" = Some pts /\
    buffer_all Geom buffer (200 # 1) pts = Some polys /\
    setitem pumps "buffer" polys = Some buffered.
Proof.
  unfold assign_buffer.
  destruct (getitem pumps "geometry") as [pts|]; [|discriminate].
  destruct (buffer_all Geom buffer (200 # 1) pts) as [polys|] eqn:Hpolys;
    [|discriminate].
  intros H. now exists pts, polys.
Qed.

Lemma setitem_elsewhere (df df' : Frame.DataFrame Geom) (c c' : string)
    (vals : list (Frame.value Geom)) :
  setitem df c vals = Some df' -> c <> c' -> getitem df' c' = getitem df c'.
Proof.
  intros Hset Hne. destruct (getitem df c') as [col|] eqn:Hget.
  - eapply setitem_other; eassumption.
  - unfold setitem in Hset. destruct df as [|col0 rest] eqn:Hd.
    + injection Hset as <-. cbn.
      apply String.eqb_neq in Hne. now rewrite Hne.
    + rewrite <- Hd in *.
      destruct (negb (List.length vals =? len df)); [discriminate|].
      destruct (getitem df c); injection Hset as <-.
      * now rewrite getitem_replace_other.
      * rewrite getitem_app, Hget. apply String.eqb_neq in Hne. now rewrite Hne.
Qed.

Lemma setitem_len (df df' : Frame.DataFrame Geom) (c : string)
    (vals : list (Frame.value Geom)) :
  df <> [] -> setitem df c vals = Some df' ->
  len df' = len df /\ List.length vals = len df /\ df' <> [].
Proof.
  intros Hne Hset. unfold setitem in Hset.
  destruct df as [|col0 rest] eqn:Hd; [congruence|]. rewrite <- Hd in *.
  destruct (Nat.eqb_spec (List.length vals) (len df)) as [Hlen|Hlen];
    [|discriminate].
  cbn [negb] in Hset. destruct (getitem df c); injection Hset as <-.
  - split; [now apply len_replace|]. split; [exact Hlen|].
    rewrite Hd. destruct col0 as [c0 v0]. simpl. destruct (String.eqb c0 c); discriminate.
  - split; [rewrite Hd; destruct col0; reflexivity|]. split; [exact Hlen|].
    rewrite Hd. discriminate.
Qed.

Lemma columns_setitem_new (df df' : Frame.DataFrame Geom) (c : string)
    (vals : list (Frame.value Geom)) :
  df <> [] -> getitem df c = None -> setitem df c vals = Some df' ->
  columns df' = columns df ++ [c].
Proof.
  intros Hne Hnone Hset. unfold setitem in Hset.
  destruct df as [|col0 rest] eqn:Hd; [congruence|]. rewrite <- Hd in *.
  destruct (negb (List.length vals =? len df)); [discriminate|].
  rewrite Hnone in Hset. injection Hset as <-.
  unfold columns. now rewrite map_app.
Qed.

(** X7.  Running [pumps['buffer'] = pumps.buffer(200)].  The assignment leaves
    every other column as it was, puts [buffer] after the existing columns
    when the table had none, and running the cell again on its own result
    changes nothing. *)
Theorem assign_buffer_again (pumps buffered : Frame.DataFrame Geom) :
  assign_buffer buffer pumps = Some buffered ->
  (getitem pumps "buffer" = None ->
   columns buffered = columns pumps ++ ["buffer"]) /\
  (forall c, c <> "buffer" -> getitem buffered c = getitem pumps c) /\
  assign_buffer buffer buffered = Some buffered.
Proof.
  intros Hrun.
  destruct (assign_buffer_inv pumps buffered Hrun) as (pts & polys & Hpts & Hpolys & Hset).
  assert (Hne : pumps <> []) by (intros ->; discriminate Hpts).
  destruct (setitem_len pumps buffered "buffer" polys Hne Hset)
    as (Hlen & Hpolys_len & Hne').
  assert (Hkeep : forall c, c <> "buffer" -> getitem buffered c = getitem pumps c).
  { intros c Hc. eapply setitem_elsewhere; [eassumption | congruence]. }
  split; [|split].
  - intros Hnew. now apply (columns_setitem_new pumps buffered "buffer" polys).
  - exact Hkeep.
  - unfold assign_buffer. rewrite Hkeep by discriminate. rewrite Hpts, Hpolys.
    pose proof (setitem_same Geom pumps buffered "buffer" polys Hset) as Hnow.
    unfold setitem. destruct buffered as [|col0 rest] eqn:Hb; [congruence|].
    rewrite <- Hb in *.
    rewrite Hpolys_len, <- Hlen, Nat.eqb_refl, Hnow. cbn [negb].
    now rewrite replace_same.
Qed.

Lemma getitem_loc (mask : string -> bool) (df : Frame.DataFrame Geom) (c : string) :
  getitem (loc_columns mask df) c = if mask c then getitem df c else None.
Proof.
  unfold loc_columns. induction df as [|[c0 col0] rest IH]; simpl.
  - now destruct (mask c).
  - destruct (mask c0) eqn:Hm0; simpl.
    + destruct (String.eqb_spec c0 c) as [->|Hne]; [now rewrite Hm0 | exact IH].
    + destruct (String.eqb_spec c0 c) as [->|Hne]; [now rewrite IH, Hm0 | exact IH].
Qed.

Lemma getitem_rename_other (old new : string) (df : Frame.DataFrame Geom) (c : string) :
  c <> old -> c <> new -> getitem (rename old new df) c = getitem df c.
Proof.
  intros Hold Hnew. unfold rename.
  induction df as [|[c0 col0] rest IH]; simpl; [reflexivity|].
  destruct (String.eqb_spec c0 old) as [->|H0].
  - apply not_eq_sym, String.eqb_neq in Hnew. rewrite Hnew.
    apply not_eq_sym, String.eqb_neq in Hold. now rewrite Hold.
  - destruct (String.eqb c0 c); [reflexivity | exact IH].
Qed.

Lemma getitem_rename_old (old new : string) (df : Frame.DataFrame Geom) :
  old <> new -> getitem (rename old new df) old = None.
Proof.
  intros Hne. unfold rename.
  induction df as [|[c0 col0] rest IH]; simpl; [reflexivity|].
  destruct (String.eqb_spec c0 old) as [->|H0].
  - apply not_eq_sym, String.eqb_neq in Hne. now rewrite Hne.
  - apply String.eqb_neq in H0. now rewrite H0.
Qed.

Lemma getitem_rename_new (old new : string) (df : Frame.DataFrame Geom) :
  getitem df new = None ->
  getitem (rename old new df) new = getitem df old.
Proof.
  unfold rename. induction df as [|[c0 col0] rest IH]; simpl; [reflexivity|].
  destruct (String.eqb_spec c0 new) as [->|Hn]; [discriminate|].
  intros Hnone. destruct (String.eqb_spec c0 old) as [->|Ho].
  - now rewrite String.eqb_refl.
  - apply String.eqb_neq in Hn. rewrite Hn. now apply IH.
Qed.

(** X8.  The [buffers] table.  After [pumps['buffer'] = pumps.buffer(200)], the
    table [buffers] that the joins use has as its [geometry] the buffer of
    each pump's point, row by row; it has no [buffer] column any more, and
    its other columns are those of [pumps]. *)
Theorem buffers_of_geometry (pumps buffered : Frame.DataFrame Geom)
    (pts : list (Frame.value Geom)) :
  getitem pumps "geometry" = Some pts ->
  assign_buffer buffer pumps = Some buffered ->
  exists polys,
    buffer_all Geom buffer (200 # 1) pts = Some polys /\
    List.length polys = List.length pts /\
    getitem (buffers_of buffered) "geometry" = Some polys /\
    getitem (buffers_of buffered) "buffer" = None /\
    (forall c, c <> "geometry" -> c <> "buffer" ->
               getitem (buffers_of buffered) c = getitem pumps c).
Proof.
  intros Hpts Hrun.
  destruct (assign_buffer_inv pumps buffered Hrun)
    as (pts' & polys & Hpts' & Hpolys & Hset).
  rewrite Hpts in Hpts'. injection Hpts' as <-.
  exists polys. split; [exact Hpolys|].
  split.
  { clear - Hpolys. revert polys Hpolys.
    induction pts as [|v rest IH]; simpl; intros polys.
    - now intros [= <-].
    - destruct v; try discriminate.
      destruct (buffer_all Geom buffer (200 # 1) rest) as [ps|]; [|discriminate].
      intros [= <-]. simpl. now rewrite (IH ps). }
  unfold buffers_of. split; [|split].
  - rewrite getitem_rename_new.
    + rewrite getitem_loc. cbn. eapply setitem_same; eassumption.
    + rewrite getitem_loc. reflexivity.
  - now apply getitem_rename_old.
  - intros c Hg Hb. rewrite getitem_rename_other by assumption.
    rewrite getitem_loc. apply String.eqb_neq in Hg. rewrite Hg. cbn [negb].
    eapply setitem_elsewhere; [eassumption | congruence].
Qed.

End Derived.

(** The pumps table at the point where the notebook buffers it, with two of
    its rows. *)
Definition two_pumps : Frame.DataFrame Frame.Sample.shape :=
  [ ("name", [VStr "Broad St Pump"; VStr "Crown Chapel"]);
    ("geometry", [VGeom (Frame.Sample.Pt 529396 181025);
                  VGeom (Frame.Sample.Pt 529192 181079)]) ].

Definition two_pumps_buffered : Frame.DataFrame Frame.Sample.shape :=
  two_pumps ++
  [ ("buffer", [VGeom (Frame.Sample.Round 529396 181025 200);
                VGeom (Frame.Sample.Round 529192 181079 200)]) ].

Lemma deaths_well_formed : well_formed Frame.Sample.shape Frame.Sample.deaths.
Proof. repeat constructor. Defined.

(** X5, run on the three rows of [Sample.deaths]. *)
Lemma assign_ids_numbers_rows_deaths :
  well_formed Frame.Sample.shape Frame.Sample.deaths /\
  In "Id" (columns Frame.Sample.deaths) /\
  exists numbered ids,
    assign_ids Frame.Sample.deaths = Some numbered /\
    columns numbered = columns Frame.Sample.deaths /\
    len numbered = len Frame.Sample.deaths /\
    well_formed Frame.Sample.shape numbered /\
    getitem numbered "Id" = Some ids /\
    ids = map (fun i => VInt (Z.of_nat i)) (seq 0 (len Frame.Sample.deaths)) /\
    NoDup ids.
Proof.
  assert (Hid : In "Id" (columns Frame.Sample.deaths)) by (left; reflexivity).
  split; [exact deaths_well_formed|]. split; [exact Hid|].
  exact (assign_ids_numbers_rows _ Frame.Sample.deaths deaths_well_formed Hid).
Defined.

(** X7, run on [two_pumps]. *)
Lemma assign_buffer_again_two_pumps :
  assign_buffer Frame.Sample.round_buffer two_pumps = Some two_pumps_buffered /\
  (getitem two_pumps "buffer" = None ->
   columns two_pumps_buffered = columns two_pumps ++ ["buffer"]) /\
  (forall c, c <> "buffer" ->
             getitem two_pumps_buffered c = getitem two_pumps c) /\
  assign_buffer Frame.Sample.round_buffer two_pumps_buffered
  = Some two_pumps_buffered.
Proof.
  assert (Hrun : assign_buffer Frame.Sample.round_buffer two_pumps
                 = Some two_pumps_buffered) by reflexivity.
  split; [exact Hrun|].
  exact (assign_buffer_again _ Frame.Sample.round_buffer
           two_pumps two_pumps_buffered Hrun).
Defined.

(** X8, run on [two_pumps]. *)
Lemma buffers_of_geometry_two_pumps :
  getitem two_pumps "geometry"
  = Some [VGeom (Frame.Sample.Pt 529396 181025);
          VGeom (Frame.Sample.Pt 529192 181079)] /\
  assign_buffer Frame.Sample.round_buffer two_pumps = Some two_pumps_buffered /\
  exists polys,
    buffer_all Frame.Sample.shape Frame.Sample.round_buffer (200 # 1)
      [VGeom (Frame.Sample.Pt 529396 181025);
       VGeom (Frame.Sample.Pt 529192 181079)] = Some polys /\
    List.length polys = 2 /\
    getitem (buffers_of Frame.Sample.shape two_pumps_buffered) "geometry"
    = Some polys /\
    getitem (buffers_of Frame.Sample.shape two_pumps_buffered) "buffer" = None /\
    (forall c, c <> "geometry" -> c <> "buffer" ->
               getitem (buffers_of Frame.Sample.shape two_pumps_buffered) c
               = getitem two_pumps c).
Proof.
  assert (Hpts : getitem two_pumps "geometry"
                 = Some [VGeom (Frame.Sample.Pt 529396 181025);
                         VGeom (Frame.Sample.Pt 529192 181079)]) by reflexivity.
  assert (Hrun : assign_buffer Frame.Sample.round_buffer two_pumps
                 = Some two_pumps_buffered) by reflexivity.
  split; [exact Hpts|]. split; [exact Hrun|].
  exact (buffers_of_geometry _ Frame.Sample.round_buffer
           two_pumps two_pumps_buffered _ Hpts Hrun).
Defined.

End Tables.

(** ** SpatialJoins.ipynb: comparing the deaths attributed to each pump *)

Module Aggregation.

Local Open Scope Z_scope.

(** The [Count] column is an int64 column, and pandas adds int64 numbers
    without a check: a sum that leaves the range wraps around. *)
Definition int64 (z : Z) : Prop := - 2 ^ 63 <= z < 2 ^ 63.

Definition wrap64 (z : Z) : Z := (z + 2 ^ 63) mod 2 ^ 64 - 2 ^ 63.

Definition add64 (a b : Z) : Z := wrap64 (a + b).

(** [Series.sum()] of an int64 column. *)
Definition total (counts : list Z) : Z := fold_right add64 0 counts.

(** A row of [deaths], with the columns the comparison reads. *)
Record death := mkDeath { Id : Z; Count : Z }.

(** A row of [deaths_within_buffers] or [deaths_within_voronoi]: the row of
    [deaths] on the left of the join and the [name] of the polygon it was
    joined to. *)
Record joined := mkJoined { left_row : death; name : string }.

(** One more row for the groups built so far, which are kept in the order of
    their keys. *)
Fixpoint add_to_group (k : string) (v : Z) (groups : list (string * Z))
    : list (string * Z) :=
  match groups with
  | [] => [(k, v)]
  | (k', s) :: rest =>
      match String.compare k k' with
      | Eq => (k', add64 s v) :: rest
      | Lt => (k, v) :: groups
      | Gt => (k', s) :: add_to_group k v rest
      end
  end.

(** [df.groupby('name')['Count'].sum()]: a Series with one entry per name, in
    the order of the names. *)
Definition groupby_sum (df : list joined) : list (string * Z) :=
  fold_left (fun groups r => add_to_group (name r) (Count (left_row r)) groups)
            df [].

(** [pd.merge(lhs, rhs, left_index=True, right_index=True)] of two Series:
    one row for every pair of entries with the same index label (an inner
    join), in the order of [lhs], with the value of either side. *)
Definition merge_index (lhs rhs : list (string * Z))
    : list (string * (Z * Z)) :=
  flat_map (fun l =>
              map (fun r => (fst l, (snd l, snd r)))
                  (filter (fun r => String.eqb (fst r) (fst l)) rhs))
           lhs.

(** [compareSums.sum()]: the sum of the [buffers] and of the [voronoi]
    column. *)
Definition sums (merged : list (string * (Z * Z))) : Z * Z :=
  (total (map (fun row => fst (snd row)) merged),
   total (map (fun row => snd (snd row)) merged)).

(** [compareSums], from the two joined frames. *)
Definition compareSums (within_buffers within_voronoi : list joined)
    : list (string * (Z * Z)) :=
  merge_index (groupby_sum within_buffers) (groupby_sum within_voronoi).

(** [deaths['Count'].sum()]. *)
Definition deaths_total (deaths : list death) : Z := total (map Count deaths).

(** [list(series.unique())]: the values in the order of their first
    appearance. *)
Fixpoint unique (names : list string) : list string :=
  match names with
  | [] => []
  | n :: rest => n :: filter (fun m => negb (String.eqb m n)) (unique rest)
  end.

(** The loop [for idx, name in enumerate(pumpNames)] that draws
    [deaths_within_voronoi[deaths_within_voronoi['name']==name]] in the colour
    number [idx]: the calls of [plot], each with its colour number and the
    rows it draws. *)
Definition plot_by_pump (df : list joined) : list (nat * list joined) :=
  map (fun call => (fst call, filter (fun r => String.eqb (name r) (snd call)) df))
      (Weights.enumerate (unique (map name df))).

(** *** Vocabulary of the statements *)

Definition mem (k : string) (ks : list string) : bool :=
  existsb (String.eqb k) ks.

(** Sums in the integers, without a range: what the statements compare the
    int64 sums of the code with. *)
Definition exact_total (counts : list Z) : Z := fold_right Z.add 0 counts.

(** The sum of [Count] over the rows of a joined frame whose name passes a
    test, in the integers. *)
Definition count_where (test : string -> bool) (df : list joined) : Z :=
  exact_total (map (fun r => Count (left_row r)) (filter (fun r => test (name r)) df)).

Definition total_where (test : string -> bool) (groups : list (string * Z)) : Z :=
  exact_total (map snd (filter (fun g => test (fst g)) groups)).

(** The grouping with sums in the integers: the groups the code would build
    if no sum could wrap. *)
Fixpoint exact_add_to_group (k : string) (v : Z) (groups : list (string * Z))
    : list (string * Z) :=
  match groups with
  | [] => [(k, v)]
  | (k', s) :: rest =>
      match String.compare k k' with
      | Eq => (k', s + v) :: rest
      | Lt => (k, v) :: groups
      | Gt => (k', s) :: exact_add_to_group k v rest
      end
  end.

Definition exact_groupby_sum (df : list joined) : list (string * Z) :=
  fold_left (fun groups r => exact_add_to_group (name r) (Count (left_row r)) groups)
            df [].

Definition exact_sums (merged : list (string * (Z * Z))) : Z * Z :=
  (exact_total (map (fun row => fst (snd row)) merged),
   exact_total (map (fun row => snd (snd row)) merged)).

Definition exact_compareSums (within_buffers within_voronoi : list joined)
    : list (string * (Z * Z)) :=
  merge_index (exact_groupby_sum within_buffers) (exact_groupby_sum within_voronoi).

(** An int64 group value, as the code holds it. *)
Definition wrapped (g : string * Z) : string * Z := (fst g, wrap64 (snd g)).

Definition increasing (keys : list string) : Prop :=
  Sorted.StronglySorted (fun a b => String.compare a b = Lt) keys.

Lemma compare_lt_trans (a b c : string) :
  String.compare a b = Lt -> String.compare b c = Lt -> String.compare a c = Lt.
Proof.
  intros Hab Hbc.
  apply OrderedTypeEx.String_as_OT.cmp_lt in Hab.
  apply OrderedTypeEx.String_as_OT.cmp_lt in Hbc.
  apply OrderedTypeEx.String_as_OT.cmp_lt.
  eapply OrderedTypeEx.String_as_OT.lt_trans; eassumption.
Qed.

Lemma compare_gt_lt (a b : string) :
  String.compare a b = Gt -> String.compare b a = Lt.
Proof.
  intros H. rewrite String.compare_antisym, H. reflexivity.
Qed.

Lemma compare_irrefl (a : string) : String.compare a a <> Lt.
Proof.
  assert (H : String.compare a a = Eq)
    by (apply OrderedTypeEx.String_as_OT.cmp_eq; reflexivity).
  congruence.
Qed.

Lemma mem_In (k : string) (ks : list string) : mem k ks = true <-> In k ks.
Proof.
  unfold mem. rewrite existsb_exists. split.
  - intros [x [Hx E]]. apply String.eqb_eq in E. now subst.
  - intros H. exists k. split; [exact H|apply String.eqb_refl].
Qed.

Lemma filter_all {A : Type} (xs : list A) : filter (fun _ => true) xs = xs.
Proof. induction xs as [|x xs IH]; simpl; [reflexivity|]. now rewrite IH. Qed.

Lemma exact_total_app (xs ys : list Z) : exact_total (xs ++ ys) = exact_total xs + exact_total ys.
Proof. induction xs as [|x xs IH]; simpl; [reflexivity|]. rewrite IH. lia. Qed.

Lemma increasing_NoDup (keys : list string) : increasing keys -> NoDup keys.
Proof.
  unfold increasing. induction 1 as [|k ks Hs IH Hall]; constructor; [|exact IH].
  intros Hin. rewrite Forall_forall in Hall.
  exact (compare_irrefl k (Hall k Hin)).
Qed.

(** *** One row more *)

Lemma exact_add_to_group_keys (k : string) (v : Z) (groups : list (string * Z)) (x : string) :
  In x (map fst (exact_add_to_group k v groups)) <-> x = k \/ In x (map fst groups).
Proof.
  induction groups as [|[k' s] rest IH]; simpl.
  - intuition congruence.
  - destruct (String.compare k k') eqn:E; simpl.
    + apply String.compare_eq_iff in E. subst k'. intuition congruence.
    + intuition congruence.
    + rewrite IH. intuition congruence.
Qed.

Lemma exact_add_to_group_increasing (k : string) (v : Z) (groups : list (string * Z)) :
  increasing (map fst groups) -> increasing (map fst (exact_add_to_group k v groups)).
Proof.
  unfold increasing. induction groups as [|[k' s] rest IH]; simpl; intros Hs.
  - repeat constructor.
  - inversion Hs as [|? ? Hrest Hall]; subst.
    destruct (String.compare k k') eqn:E; simpl.
    + constructor; assumption.
    + constructor; [exact Hs|]. constructor; [exact E|].
      eapply Forall_impl; [|exact Hall].
      intros x Hx. eapply compare_lt_trans; eassumption.
    + constructor; [now apply IH|].
      apply Forall_forall. intros x Hx. apply exact_add_to_group_keys in Hx.
      destruct Hx as [->|Hx]; [now apply compare_gt_lt|].
      rewrite Forall_forall in Hall. now apply Hall.
Qed.

Lemma exact_add_to_group_total_where (test : string -> bool) (k : string) (v : Z)
    (groups : list (string * Z)) :
  total_where test (exact_add_to_group k v groups)
  = total_where test groups + (if test k then v else 0).
Proof.
  unfold total_where. induction groups as [|[k' s] rest IH]; simpl.
  - destruct (test k); simpl; lia.
  - destruct (String.compare k k') eqn:E; simpl.
    + apply String.compare_eq_iff in E. subst k'.
      destruct (test k); simpl; lia.
    + destruct (test k), (test k'); simpl; lia.
    + destruct (test k'); simpl; rewrite IH; lia.
Qed.

(** *** All the rows *)

Lemma fold_keys (df : list joined) (groups : list (string * Z)) (x : string) :
  In x (map fst (fold_left (fun g r => exact_add_to_group (name r) (Count (left_row r)) g)
                           df groups))
  <-> In x (map name df) \/ In x (map fst groups).
Proof.
  revert groups. induction df as [|r df IH]; intros groups; simpl.
  - intuition.
  - rewrite IH, exact_add_to_group_keys. intuition congruence.
Qed.

Lemma fold_increasing (df : list joined) (groups : list (string * Z)) :
  increasing (map fst groups) ->
  increasing (map fst (fold_left (fun g r => exact_add_to_group (name r) (Count (left_row r)) g)
                                 df groups)).
Proof.
  revert groups. induction df as [|r df IH]; intros groups H; simpl.
  - exact H.
  - apply IH. now apply exact_add_to_group_increasing.
Qed.

Lemma fold_total_where (test : string -> bool) (df : list joined)
    (groups : list (string * Z)) :
  total_where test (fold_left (fun g r => exact_add_to_group (name r) (Count (left_row r)) g)
                              df groups)
  = total_where test groups + count_where test df.
Proof.
  revert groups. induction df as [|r df IH]; intros groups; simpl.
  - unfold count_where. simpl. lia.
  - rewrite IH, exact_add_to_group_total_where. unfold count_where. simpl.
    destruct (test (name r)); simpl; lia.
Qed.

Lemma exact_groupby_sum_keys (df : list joined) (x : string) :
  In x (map fst (exact_groupby_sum df)) <-> In x (map name df).
Proof. unfold exact_groupby_sum. rewrite fold_keys. simpl. intuition. Qed.

Lemma exact_groupby_sum_increasing (df : list joined) :
  increasing (map fst (exact_groupby_sum df)).
Proof. unfold exact_groupby_sum. apply fold_increasing. constructor. Qed.

Lemma exact_groupby_sum_total_where (test : string -> bool) (df : list joined) :
  total_where test (exact_groupby_sum df) = count_where test df.
Proof. unfold exact_groupby_sum. rewrite fold_total_where. reflexivity. Qed.

(** With distinct keys, the entries that pass [String.eqb _ k] are the one
    entry of [k]. *)
Lemma total_where_entry (groups : list (string * Z)) (k : string) (s : Z) :
  NoDup (map fst groups) -> In (k, s) groups ->
  total_where (fun x => String.eqb x k) groups = s.
Proof.
  unfold total_where. induction groups as [|[k' s'] rest IH]; simpl; intros Hnd Hin.
  - contradiction.
  - inversion Hnd as [|? ? Hnot Hrest]; subst.
    destruct Hin as [E|Hin].
    + inversion E; subst. rewrite String.eqb_refl. simpl.
      assert (Hnone : filter (fun g => String.eqb (fst g) k) rest = []).
      { clear - Hnot. induction rest as [|[a b] rest IH]; simpl in *; [reflexivity|].
        destruct (String.eqb a k) eqn:E.
        - apply String.eqb_eq in E. subst. exfalso. apply Hnot. now left.
        - apply IH. intros H. apply Hnot. now right. }
      rewrite Hnone. simpl. lia.
    + destruct (String.eqb k' k) eqn:E.
      * apply String.eqb_eq in E. subst k'. exfalso. apply Hnot.
        change k with (fst (k, s)). now apply in_map.
      * now apply IH.
Qed.

(** *** The merge *)

Lemma filter_key_absent (rhs : list (string * Z)) (k : string) :
  ~ In k (map fst rhs) -> filter (fun r => String.eqb (fst r) k) rhs = [].
Proof.
  induction rhs as [|[a b] rhs IH]; simpl; intros Hnot; [reflexivity|].
  destruct (String.eqb a k) eqn:E.
  - apply String.eqb_eq in E. subst. exfalso. apply Hnot. now left.
  - apply IH. intros H. apply Hnot. now right.
Qed.

Lemma filter_key_present (rhs : list (string * Z)) (k : string) :
  NoDup (map fst rhs) -> In k (map fst rhs) ->
  exists s, filter (fun r => String.eqb (fst r) k) rhs = [(k, s)].
Proof.
  induction rhs as [|[a b] rhs IH]; simpl; intros Hnd Hin; [contradiction|].
  inversion Hnd as [|? ? Hnot Hrest]; subst.
  destruct (String.eqb a k) eqn:E.
  - apply String.eqb_eq in E. subst a. exists b.
    now rewrite (filter_key_absent rhs k Hnot).
  - destruct Hin as [->|Hin]; [now rewrite String.eqb_refl in E|].
    now apply IH.
Qed.

Lemma merge_left_total (lhs rhs : list (string * Z)) :
  NoDup (map fst rhs) ->
  exact_total (map (fun row => fst (snd row)) (merge_index lhs rhs))
  = total_where (fun k => mem k (map fst rhs)) lhs.
Proof.
  intros Hnd. unfold merge_index, total_where.
  induction lhs as [|[k s] lhs IH]; simpl; [reflexivity|].
  rewrite map_app, exact_total_app, IH. clear IH.
  destruct (mem k (map fst rhs)) eqn:E.
  - apply mem_In in E. destruct (filter_key_present rhs k Hnd E) as [t ->].
    simpl. lia.
  - rewrite filter_key_absent; [simpl; lia|].
    intros H. apply mem_In in H. congruence.
Qed.

Lemma total_where_cons (k : string) (ks : list string) (rhs : list (string * Z)) :
  ~ In k ks ->
  total_where (fun x => mem x (k :: ks)) rhs
  = total_where (fun x => String.eqb x k) rhs + total_where (fun x => mem x ks) rhs.
Proof.
  intros Hnot. unfold total_where, exact_total.
  induction rhs as [|[a b] rhs IH]; cbn [filter map fst]; [reflexivity|].
  assert (Hm : mem a (k :: ks) = (String.eqb a k || mem a ks)%bool) by reflexivity.
  rewrite Hm. clear Hm.
  destruct (String.eqb a k) eqn:E; destruct (mem a ks) eqn:M;
    cbn [orb map snd fold_right]; try (rewrite IH; lia).
  apply String.eqb_eq in E. subst a. apply mem_In in M. contradiction.
Qed.

Lemma merge_right_total (lhs rhs : list (string * Z)) :
  NoDup (map fst lhs) ->
  exact_total (map (fun row => snd (snd row)) (merge_index lhs rhs))
  = total_where (fun k => mem k (map fst lhs)) rhs.
Proof.
  unfold merge_index.
  induction lhs as [|[k s] lhs IH]; cbn [flat_map map fst snd]; intros Hnd.
  - unfold total_where. induction rhs as [|r rhs IHr]; simpl; [reflexivity|exact IHr].
  - inversion Hnd as [|? ? Hnot Hrest]; subst.
    rewrite map_app, exact_total_app, (IH Hrest).
    etransitivity; [|symmetry; exact (total_where_cons k _ rhs Hnot)].
    f_equal. unfold total_where. rewrite map_map. reflexivity.
Qed.

Lemma merge_keys (lhs rhs : list (string * Z)) (x : string) :
  In x (map fst (merge_index lhs rhs))
  <-> In x (map fst lhs) /\ In x (map fst rhs).
Proof.
  unfold merge_index. rewrite in_map_iff. split.
  - intros [[k [a b]] [E H]]. simpl in E. subst k.
    apply in_flat_map in H. destruct H as [l [Hl H]].
    apply in_map_iff in H. destruct H as [r [Er Hr]].
    inversion Er; subst. apply filter_In in Hr. destruct Hr as [Hr Ek].
    apply String.eqb_eq in Ek. split.
    + now apply in_map.
    + rewrite <- Ek. now apply in_map.
  - intros [Hl Hr]. apply in_map_iff in Hl. destruct Hl as [l [El Hl]].
    apply in_map_iff in Hr. destruct Hr as [r [Er Hr]].
    exists (fst l, (snd l, snd r)). split; [exact El|].
    apply in_flat_map. exists l. split; [exact Hl|].
    apply in_map_iff. exists r. split; [reflexivity|].
    apply filter_In. split; [exact Hr|]. apply String.eqb_eq. congruence.
Qed.

Lemma count_where_ext (f g : string -> bool) (df : list joined) :
  (forall r, In r df -> f (name r) = g (name r)) ->
  count_where f df = count_where g df.
Proof.
  intros H. unfold count_where. f_equal. f_equal.
  apply filter_ext_in. exact H.
Qed.

Lemma mem_ext (ks ks' : list string) (k : string) :
  (forall x, In x ks <-> In x ks') -> mem k ks = mem k ks'.
Proof.
  intros H. destruct (mem k ks) eqn:E, (mem k ks') eqn:E'; try reflexivity.
  - apply mem_In, H, mem_In in E. congruence.
  - apply mem_In, H, mem_In in E'. congruence.
Qed.

Lemma count_where_le (test : string -> bool) (df : list joined) :
  (forall r, In r df -> 0 <= Count (left_row r)) ->
  count_where test df <= count_where (fun _ => true) df.
Proof.
  unfold count_where. induction df as [|r df IH]; simpl; intros H; [lia|].
  assert (H0 : 0 <= Count (left_row r)) by (apply H; now left).
  assert (IH' := IH (fun r' Hr => H r' (or_intror Hr))).
  destruct (test (name r)); simpl; lia.
Qed.

(** Rows picked from [deaths] without repetition sum to at most the whole
    column, when no count is negative. *)
Lemma picked_total_le (picked deaths : list death) :
  NoDup picked -> incl picked deaths ->
  (forall d, In d deaths -> 0 <= Count d) ->
  exact_total (map Count picked) <= exact_total (map Count deaths).
Proof.
  revert deaths. induction picked as [|d picked IH]; intros deaths Hnd Hincl Hpos.
  - simpl. clear Hnd Hincl.
    induction deaths as [|e deaths IHd]; simpl; [lia|].
    assert (0 <= Count e) by (apply Hpos; now left).
    assert (0 <= exact_total (map Count deaths)) by (apply IHd; intros; apply Hpos; now right).
    unfold exact_total in *. lia.
  - inversion Hnd as [|? ? Hnot Hrest]; subst.
    assert (Hd : In d deaths) by (apply Hincl; now left).
    apply in_split in Hd. destruct Hd as [before [after ->]].
    assert (Hincl' : incl picked (before ++ after)).
    { intros e He. assert (Hin : In e (before ++ d :: after)) by (apply Hincl; now right).
      apply in_app_or in Hin. apply in_or_app.
      destruct Hin as [Hin|[E|Hin]]; [now left| subst; contradiction | now right]. }
    assert (Hpos' : forall e, In e (before ++ after) -> 0 <= Count e).
    { intros e He. apply Hpos. apply in_app_or in He. apply in_or_app.
      destruct He; [now left|right; now right]. }
    specialize (IH _ Hrest Hincl' Hpos').
    rewrite map_app, exact_total_app in IH. rewrite map_app, exact_total_app. simpl. lia.
Qed.

Lemma NoDup_of_map {A B : Type} (f : A -> B) (xs : list A) :
  NoDup (map f xs) -> NoDup xs.
Proof.
  induction xs as [|x xs IH]; simpl; intros H; constructor;
    inversion H as [|? ? Hnot Hrest]; subst.
  - intros Hin. apply Hnot. now apply in_map.
  - now apply IH.
Qed.

(** The groups in the integers: one entry for every name of the frame and
    no other, in increasing order of the names, each with the sum of [Count]
    over the rows of that name. *)
Lemma exact_groups (df : list joined) :
  increasing (map fst (exact_groupby_sum df))
  /\ (forall k s, In (k, s) (exact_groupby_sum df)
                  <-> In k (map name df)
                      /\ s = count_where (fun x => String.eqb x k) df)
  /\ exact_total (map snd (exact_groupby_sum df)) = count_where (fun _ => true) df.
Proof.
  assert (Hinc := exact_groupby_sum_increasing df).
  assert (Hnd := increasing_NoDup _ Hinc).
  split; [exact Hinc|]. split.
  - intros k s. split.
    + intros Hin. split.
      * apply exact_groupby_sum_keys. change k with (fst (k, s)). now apply in_map.
      * rewrite <- exact_groupby_sum_total_where. symmetry.
        now apply total_where_entry.
    + intros [Hk ->]. apply exact_groupby_sum_keys in Hk.
      apply in_map_iff in Hk. destruct Hk as [[k' s] [E Hin]]. simpl in E. subst k'.
      rewrite <- exact_groupby_sum_total_where.
      now rewrite (total_where_entry _ k s Hnd Hin).
  - rewrite <- exact_groupby_sum_total_where. unfold total_where.
    now rewrite filter_all.
Qed.

(** The merge in the integers. *)
Lemma exact_compare (within_buffers within_voronoi : list joined) :
  NoDup (map fst (exact_compareSums within_buffers within_voronoi))
  /\ (forall k, In k (map fst (exact_compareSums within_buffers within_voronoi))
                <-> In k (map name within_buffers) /\ In k (map name within_voronoi))
  /\ exact_sums (exact_compareSums within_buffers within_voronoi)
     = (count_where (fun k => mem k (map name within_voronoi)) within_buffers,
        count_where (fun k => mem k (map name within_buffers)) within_voronoi).
Proof.
  unfold exact_compareSums.
  assert (Hb := increasing_NoDup _ (exact_groupby_sum_increasing within_buffers)).
  assert (Hv := increasing_NoDup _ (exact_groupby_sum_increasing within_voronoi)).
  split; [|split].
  - unfold merge_index.
    revert Hb. generalize (exact_groupby_sum within_buffers) as lhs.
    induction lhs as [|[k s] lhs IH]; simpl; intros Hnd; [constructor|].
    inversion Hnd as [|? ? Hnot Hrest]; subst.
    rewrite map_app, map_map. simpl.
    destruct (mem k (map fst (exact_groupby_sum within_voronoi))) eqn:E.
    + apply mem_In in E. destruct (filter_key_present _ k Hv E) as [t ->]. simpl.
      constructor; [|now apply IH].
      intros Hin. apply (merge_keys lhs (exact_groupby_sum within_voronoi) k) in Hin.
      now apply Hnot.
    + rewrite filter_key_absent; [simpl; now apply IH|].
      intros H. apply mem_In in H. congruence.
  - intros k. rewrite merge_keys, !exact_groupby_sum_keys. reflexivity.
  - unfold exact_sums. rewrite (merge_left_total _ _ Hv), (merge_right_total _ _ Hb).
    rewrite !exact_groupby_sum_total_where. f_equal.
    + apply count_where_ext. intros r _. apply mem_ext.
      intros x. apply exact_groupby_sum_keys.
    + apply count_where_ext. intros r _. apply mem_ext.
      intros x. apply exact_groupby_sum_keys.
Qed.

(** *** From the sums in the integers to the int64 sums of the code *)

Lemma two64_positive : 0 < 2 ^ 64.
Proof. reflexivity. Qed.

Lemma wrap64_small (z : Z) : int64 z -> wrap64 z = z.
Proof.
  unfold int64, wrap64. intros H.
  change (2 ^ 64) with (2 * 2 ^ 63).
  rewrite Z.mod_small; lia.
Qed.

Lemma wrap64_add_l (a b : Z) : wrap64 (wrap64 a + b) = wrap64 (a + b).
Proof.
  unfold wrap64. f_equal.
  replace ((a + 2 ^ 63) mod 2 ^ 64 - 2 ^ 63 + b + 2 ^ 63)
    with ((a + 2 ^ 63) mod 2 ^ 64 + b) by lia.
  rewrite Z.add_mod_idemp_l by (apply Z.neq_sym, Z.lt_neq, two64_positive).
  f_equal. lia.
Qed.

Lemma wrap64_add_r (a b : Z) : wrap64 (a + wrap64 b) = wrap64 (a + b).
Proof. rewrite (Z.add_comm a), wrap64_add_l. f_equal. lia. Qed.

Lemma total_exact (counts : list Z) : total counts = wrap64 (exact_total counts).
Proof.
  induction counts as [|c rest IH]; [reflexivity|].
  change (total (c :: rest)) with (add64 c (total rest)).
  change (exact_total (c :: rest)) with (c + exact_total rest).
  unfold add64. now rewrite IH, wrap64_add_r.
Qed.

Lemma wrap64_exact_total (counts : list Z) :
  wrap64 (exact_total (map wrap64 counts)) = wrap64 (exact_total counts).
Proof.
  induction counts as [|c rest IH]; [reflexivity|].
  cbn [map].
  change (exact_total (wrap64 c :: map wrap64 rest))
    with (wrap64 c + exact_total (map wrap64 rest)).
  change (exact_total (c :: rest)) with (c + exact_total rest).
  rewrite wrap64_add_l, <- wrap64_add_r, IH, wrap64_add_r. reflexivity.
Qed.

Lemma total_wrapped (counts : list Z) :
  total (map wrap64 counts) = wrap64 (exact_total counts).
Proof. now rewrite total_exact, wrap64_exact_total. Qed.

Lemma add_to_group_wrapped (k : string) (v : Z) (groups : list (string * Z)) :
  int64 v ->
  add_to_group k v (map wrapped groups)
  = map wrapped (exact_add_to_group k v groups).
Proof.
  intros Hv. induction groups as [|[k' s] rest IH].
  - cbn. unfold wrapped. cbn. now rewrite (wrap64_small v Hv).
  - cbn [map add_to_group exact_add_to_group wrapped fst snd].
    destruct (String.compare k k'); cbn [map].
    + unfold wrapped, add64. cbn [fst snd]. now rewrite wrap64_add_l.
    + unfold wrapped. cbn [fst snd]. now rewrite (wrap64_small v Hv).
    + now rewrite <- IH.
Qed.

Lemma groupby_sum_wrapped (df : list joined) :
  (forall r, In r df -> int64 (Count (left_row r))) ->
  groupby_sum df = map wrapped (exact_groupby_sum df).
Proof.
  unfold groupby_sum, exact_groupby_sum.
  change (@nil (string * Z)) with (map wrapped []) at 1.
  generalize (@nil (string * Z)) as groups.
  induction df as [|r df IH]; intros groups Hdf; [reflexivity|].
  cbn [fold_left].
  rewrite add_to_group_wrapped by (apply Hdf; now left).
  apply IH. intros r' Hr'. apply Hdf. now right.
Qed.

Lemma wrapped_keys (groups : list (string * Z)) :
  map fst (map wrapped groups) = map fst groups.
Proof. rewrite map_map. reflexivity. Qed.

Lemma merge_wrapped (lhs rhs : list (string * Z)) :
  merge_index (map wrapped lhs) (map wrapped rhs)
  = map (fun row => (fst row, (wrap64 (fst (snd row)), wrap64 (snd (snd row)))))
        (merge_index lhs rhs).
Proof.
  unfold merge_index. induction lhs as [|l lhs IH]; [reflexivity|].
  cbn [map flat_map]. rewrite map_app, IH. f_equal.
  clear. destruct l as [k s]. unfold wrapped at 1 2 3. cbn [fst snd].
  induction rhs as [|[k' s'] rhs IHr]; [reflexivity|].
  cbn [map filter]. unfold wrapped at 1. cbn [fst snd].
  destruct (String.eqb k' k); cbn [map fst snd]; now rewrite IHr.
Qed.

Lemma sums_wrapped (merged : list (string * (Z * Z))) :
  sums (map (fun row => (fst row, (wrap64 (fst (snd row)), wrap64 (snd (snd row)))))
            merged)
  = (wrap64 (fst (exact_sums merged)), wrap64 (snd (exact_sums merged))).
Proof.
  unfold sums, exact_sums. cbn [fst snd]. rewrite !map_map. cbn [fst snd].
  rewrite <- (map_map (fun row : string * (Z * Z) => fst (snd row)) wrap64).
  rewrite <- (map_map (fun row : string * (Z * Z) => snd (snd row)) wrap64).
  now rewrite !total_wrapped.
Qed.

Lemma exact_total_nonneg (counts : list Z) :
  (forall c, In c counts -> 0 <= c) -> 0 <= exact_total counts.
Proof.
  induction counts as [|c rest IH]; intros H; cbn [exact_total fold_right]; [lia|].
  assert (0 <= c) by (apply H; now left).
  assert (0 <= exact_total rest) by (apply IH; intros; apply H; now right).
  unfold exact_total in *. lia.
Qed.

Lemma count_where_nonneg (test : string -> bool) (df : list joined) :
  (forall r, In r df -> 0 <= Count (left_row r)) ->
  0 <= count_where test df.
Proof.
  intros H. unfold count_where. apply exact_total_nonneg.
  intros c Hc. apply in_map_iff in Hc. destruct Hc as (r & <- & Hr).
  apply filter_In in Hr. now apply H.
Qed.

Lemma compareSums_totals (within_buffers within_voronoi : list joined) :
  (forall r, In r within_buffers -> int64 (Count (left_row r))) ->
  (forall r, In r within_voronoi -> int64 (Count (left_row r))) ->
  fst (sums (compareSums within_buffers within_voronoi))
  = wrap64 (count_where (fun k => mem k (map name within_voronoi)) within_buffers)
  /\ snd (sums (compareSums within_buffers within_voronoi))
     = wrap64 (count_where (fun k => mem k (map name within_buffers)) within_voronoi).
Proof.
  intros Hb Hv. unfold compareSums.
  rewrite (groupby_sum_wrapped _ Hb), (groupby_sum_wrapped _ Hv), merge_wrapped.
  destruct (exact_compare within_buffers within_voronoi) as (_ & _ & Hsums).
  unfold exact_compareSums in *.
  rewrite sums_wrapped, Hsums. split; reflexivity.
Qed.

(** X9.  On a joined frame of int64 counts,
    [groupby('name')['Count'].sum()] has one entry for every name of the
    frame and no other, the entries come in increasing order of the names,
    the value of an entry is the sum of [Count] over the rows of that name,
    wrapped to int64, and the values add up to the wrapped sum of [Count]
    over the whole frame.  When no count is negative and the sum over the
    whole frame is below 2^63, nothing wraps: every value is the sum itself. *)
Theorem groupby_sum_groups (df : list joined) :
  (forall r, In r df -> int64 (Count (left_row r))) ->
  increasing (map fst (groupby_sum df))
  /\ (forall k s, In (k, s) (groupby_sum df)
                  <-> In k (map name df)
                      /\ s = wrap64 (count_where (fun x => String.eqb x k) df))
  /\ total (map snd (groupby_sum df)) = wrap64 (count_where (fun _ => true) df)
  /\ ((forall r, In r df -> 0 <= Count (left_row r)) ->
      count_where (fun _ => true) df < 2 ^ 63 ->
      (forall k s, In (k, s) (groupby_sum df) ->
                   s = count_where (fun x => String.eqb x k) df) /\
      total (map snd (groupby_sum df)) = count_where (fun _ => true) df).
Proof.
  intros Hdf. rewrite (groupby_sum_wrapped df Hdf).
  destruct (exact_groups df) as (Hinc & Hval & Hsum).
  assert (Hin : forall k s,
             In (k, s) (map wrapped (exact_groupby_sum df))
             <-> In k (map name df)
                 /\ s = wrap64 (count_where (fun x => String.eqb x k) df)).
  { intros k s. rewrite in_map_iff. split.
    - intros ([k' s'] & [= <- <-] & Hin). apply Hval in Hin.
      destruct Hin as [Hk ->]. cbn [fst snd]. auto.
    - intros [Hk ->].
      exists (k, count_where (fun x => String.eqb x k) df).
      split; [reflexivity|]. apply Hval. auto. }
  assert (Htot : total (map snd (map wrapped (exact_groupby_sum df)))
                 = wrap64 (count_where (fun _ => true) df)).
  { rewrite map_map. cbn [wrapped snd].
    rewrite <- (map_map snd wrap64), total_wrapped. now rewrite Hsum. }
  split; [now rewrite wrapped_keys|]. split; [exact Hin|]. split; [exact Htot|].
  intros Hpos Hfit. split.
  - intros k s Hks. apply Hin in Hks. destruct Hks as [_ ->].
    apply wrap64_small. unfold int64.
    pose proof (count_where_nonneg (fun x => String.eqb x k) df Hpos).
    pose proof (count_where_le (fun x => String.eqb x k) df Hpos). lia.
  - rewrite Htot. apply wrap64_small. unfold int64.
    pose proof (count_where_nonneg (fun _ => true) df Hpos). lia.
Qed.

(** X10.  On joined frames of int64 counts, [compareSums] has one row for
    every name that occurs in both joined frames, and [compareSums.sum()]
    gives, for either frame, the sum of [Count] over its rows whose name also
    occurs in the other frame, wrapped to int64: the rows of a polygon that
    the other join left empty are dropped from the totals. *)
Theorem compareSums_sum (within_buffers within_voronoi : list joined) :
  (forall r, In r within_buffers -> int64 (Count (left_row r))) ->
  (forall r, In r within_voronoi -> int64 (Count (left_row r))) ->
  NoDup (map fst (compareSums within_buffers within_voronoi))
  /\ (forall k, In k (map fst (compareSums within_buffers within_voronoi))
                <-> In k (map name within_buffers) /\ In k (map name within_voronoi))
  /\ sums (compareSums within_buffers within_voronoi)
     = (wrap64 (count_where (fun k => mem k (map name within_voronoi)) within_buffers),
        wrap64 (count_where (fun k => mem k (map name within_buffers)) within_voronoi)).
Proof.
  intros Hb Hv. unfold compareSums.
  rewrite (groupby_sum_wrapped _ Hb), (groupby_sum_wrapped _ Hv), merge_wrapped.
  destruct (exact_compare within_buffers within_voronoi) as (Hnd & Hkeys & Hsums).
  unfold exact_compareSums in *.
  split; [|split].
  - rewrite map_map. exact Hnd.
  - intros k. rewrite map_map. apply Hkeys.
  - rewrite sums_wrapped, Hsums. reflexivity.
Qed.

(** X11.  When every row of the Voronoi join carries a row of [deaths], no
    death location is joined twice, no count is negative, and the sum of the
    [Count] column of [deaths] is below 2^63, so that it does not wrap, the
    [voronoi] total of [compareSums.sum()] is at most [deaths['Count'].sum()],
    whatever int64 counts the buffer join contains. *)
Theorem voronoi_total_bounded (deaths : list death)
    (within_buffers within_voronoi : list joined)
    (Hrows : incl (map left_row within_voronoi) deaths)
    (Honce : NoDup (map (fun r => Id (left_row r)) within_voronoi))
    (Hcounts : forall d, In d deaths -> 0 <= Count d)
    (Hfits : exact_total (map Count deaths) < 2 ^ 63)
    (Hbuffers : forall r, In r within_buffers -> int64 (Count (left_row r))) :
  snd (sums (compareSums within_buffers within_voronoi)) <= deaths_total deaths.
Proof.
  assert (Hsum : 0 <= exact_total (map Count deaths)).
  { apply exact_total_nonneg. intros c Hc. apply in_map_iff in Hc.
    destruct Hc as (d & <- & Hd). now apply Hcounts. }
  assert (Hvpos : forall r, In r within_voronoi -> 0 <= Count (left_row r)).
  { intros r Hr. apply Hcounts, Hrows. now apply in_map. }
  assert (Hall : count_where (fun _ => true) within_voronoi
                 <= exact_total (map Count deaths)).
  { unfold count_where. rewrite filter_all, <- (map_map left_row Count).
    apply picked_total_le; [|exact Hrows|exact Hcounts].
    rewrite <- (map_map left_row Id) in Honce.
    exact (NoDup_of_map Id _ Honce). }
  assert (Hv : forall r, In r within_voronoi -> int64 (Count (left_row r))).
  { intros r Hr. unfold int64.
    pose proof (Hvpos r Hr).
    assert (Hone : Count (left_row r) <= count_where (fun _ => true) within_voronoi).
    { clear - Hr Hvpos. unfold count_where. rewrite filter_all.
      induction within_voronoi as [|r' rest IH]; [contradiction|].
      cbn [map exact_total fold_right].
      assert (0 <= exact_total (map (fun r0 => Count (left_row r0)) rest)).
      { apply exact_total_nonneg. intros c Hc. apply in_map_iff in Hc.
        destruct Hc as (r0 & <- & Hr0). apply Hvpos. now right. }
      assert (0 <= Count (left_row r')) by (apply Hvpos; now left).
      unfold exact_total in *.
      destruct Hr as [->|Hr]; [lia|].
      specialize (IH (fun r0 Hr0 => Hvpos r0 (or_intror Hr0)) Hr). lia. }
    lia. }
  destruct (compareSums_totals within_buffers within_voronoi Hbuffers Hv) as [_ Hright].
  rewrite Hright. unfold deaths_total. rewrite total_exact.
  rewrite (wrap64_small (exact_total (map Count deaths))) by (unfold int64; lia).
  pose proof (count_where_nonneg (fun k => mem k (map name within_buffers))
                within_voronoi Hvpos).
  pose proof (count_where_le (fun k => mem k (map name within_buffers))
                within_voronoi Hvpos).
  rewrite wrap64_small by (unfold int64; lia). lia.
Qed.

(** *** The plot of the deaths by pump *)

Lemma unique_In (names : list string) (x : string) :
  In x (unique names) <-> In x names.
Proof.
  induction names as [|n rest IH]; simpl; [tauto|].
  rewrite filter_In, IH, negb_true_iff, String.eqb_neq.
  destruct (string_dec n x) as [->|Hne]; [tauto|].
  split; [intros [H|[H _]]; auto | intros [H|H]; auto].
Qed.

Lemma unique_NoDup (names : list string) : NoDup (unique names).
Proof.
  induction names as [|n rest IH]; simpl; constructor.
  - rewrite filter_In, negb_true_iff, String.eqb_neq. tauto.
  - now apply NoDup_filter.
Qed.

Lemma filter_where {A : Type} (test : A -> bool) (xs : list A) :
  (forall x, In x xs -> test x = true) -> filter test xs = xs.
Proof.
  induction xs as [|x xs IH]; simpl; intros H; [reflexivity|].
  rewrite (H x (or_introl eq_refl)), IH; [reflexivity|].
  intros y Hy. apply H. now right.
Qed.

Lemma filter_apart {A : Type} (f g : A -> bool) (xs : list A) :
  (forall x, In x xs -> f x = true -> g x = false) ->
  Permutation.Permutation (filter f xs ++ filter g xs)
                          (filter (fun x => f x || g x) xs).
Proof.
  induction xs as [|x xs IH]; simpl; intros H; [constructor|].
  assert (IH' := IH (fun y Hy => H y (or_intror Hy))).
  specialize (H x (or_introl eq_refl)).
  destruct (f x) eqn:Hf; simpl.
  - rewrite (H eq_refl). now constructor.
  - destruct (g x); [|exact IH'].
    apply Permutation.Permutation_sym, Permutation.Permutation_cons_app.
    now apply Permutation.Permutation_sym.
Qed.

Lemma groups_cover (df : list joined) (ks : list string) :
  NoDup ks ->
  Permutation.Permutation
    (flat_map (fun n => filter (fun r => String.eqb (name r) n) df) ks)
    (filter (fun r => mem (name r) ks) df).
Proof.
  induction ks as [|k ks IH]; intros Hnd.
  - cbn [flat_map]. assert (E : filter (fun r => mem (name r) []) df = []).
    { clear. induction df as [|r df IH]; simpl; [reflexivity | exact IH]. }
    rewrite E. constructor.
  - inversion Hnd as [|? ? Hnot Hrest]; subst.
    cbn [flat_map].
    eapply Permutation.perm_trans.
    + apply Permutation.Permutation_app_head, IH, Hrest.
    + apply (filter_apart (fun r => String.eqb (name r) k)
                          (fun r => mem (name r) ks) df).
      intros r _ Hk. apply String.eqb_eq in Hk.
      destruct (mem (name r) ks) eqn:M; [|reflexivity].
      apply mem_In in M. congruence.
Qed.

Lemma enumerate_calls {A B : Type} (f : A -> list B) (xs : list A) (a : nat) :
  flat_map snd (map (fun call => (fst call, f (snd call)))
                    (combine (seq a (List.length xs)) xs))
  = flat_map f xs.
Proof.
  revert a. induction xs as [|x xs IH]; intros a; simpl; [reflexivity|].
  now rewrite IH.
Qed.

Lemma enumerate_numbers {A : Type} (xs : list A) (a : nat) :
  map fst (combine (seq a (List.length xs)) xs) = seq a (List.length xs).
Proof.
  revert a. induction xs as [|x xs IH]; intros a; simpl; [reflexivity|].
  now rewrite IH.
Qed.

Lemma enumerate_In {A : Type} (xs : list A) (a i : nat) (x : A) :
  In (i, x) (combine (seq a (List.length xs)) xs) ->
  (a <= i)%nat /\ nth_error xs (i - a) = Some x.
Proof.
  revert a. induction xs as [|y xs IH]; intros a; simpl; [contradiction|].
  intros [E|H].
  - inversion E; subst. rewrite Nat.sub_diag. split; [lia | reflexivity].
  - destruct (IH _ H) as [Hle Hnth]. split; [lia|].
    replace (i - a)%nat with (S (i - S a)) by lia. exact Hnth.
Qed.

Lemma plot_by_pump_call (df : list joined) (i : nat) (rows : list joined) :
  In (i, rows) (plot_by_pump df) ->
  exists n, nth_error (unique (map name df)) i = Some n /\
            rows = filter (fun r => String.eqb (name r) n) df.
Proof.
  unfold plot_by_pump, Weights.enumerate. intros H.
  apply in_map_iff in H. destruct H as [[j n] [E H]]. simpl in E.
  inversion E; subst. exists n. split; [|reflexivity].
  apply enumerate_In in H. destruct H as [_ H].
  now rewrite Nat.sub_0_r in H.
Qed.

(** X12.  the loop over [pumpNames] draws every row of
    [deaths_within_voronoi] exactly once.  The calls of [plot] are numbered
    from 0; each draws the rows of one name, at least one row; rows of the
    same name are drawn by the same call; taken together the calls draw the
    rows of the frame, none twice and none left out. *)
Theorem plot_by_pump_partition (df : list joined) :
  Permutation.Permutation (flat_map snd (plot_by_pump df)) df
  /\ map fst (plot_by_pump df) = seq 0 (List.length (plot_by_pump df))
  /\ (forall i rows,
         In (i, rows) (plot_by_pump df) ->
         rows <> [] /\
         exists n, rows = filter (fun r => String.eqb (name r) n) df)
  /\ (forall i j rows rows' r r',
         In (i, rows) (plot_by_pump df) -> In (j, rows') (plot_by_pump df) ->
         In r rows -> In r' rows' -> name r = name r' -> i = j).
Proof.
  split; [|split; [|split]].
  - unfold plot_by_pump, Weights.enumerate.
    rewrite (enumerate_calls
               (fun n => filter (fun r => String.eqb (name r) n) df)).
    eapply Permutation.perm_trans; [apply groups_cover, unique_NoDup|].
    rewrite filter_where; [apply Permutation.Permutation_refl|].
    intros r Hr. apply mem_In, unique_In. now apply in_map.
  - unfold plot_by_pump, Weights.enumerate.
    rewrite length_map, map_map. cbn [fst].
    rewrite enumerate_numbers. f_equal.
    clear. generalize (unique (map name df)) as xs. intros xs.
    generalize 0%nat as a. induction xs as [|x xs IH]; intros a; simpl; [reflexivity|].
    now rewrite <- IH.
  - intros i rows H. destruct (plot_by_pump_call df i rows H) as [n [Hn ->]].
    split; [|now exists n].
    apply nth_error_In, unique_In, in_map_iff in Hn.
    destruct Hn as [r [Er Hr]].
    intros Hempty.
    assert (Hin : In r (filter (fun r0 => String.eqb (name r0) n) df)).
    { apply filter_In. split; [exact Hr|]. now apply String.eqb_eq. }
    rewrite Hempty in Hin. contradiction.
  - intros i j rows rows' r r' Hi Hj Hr Hr' Hsame.
    destruct (plot_by_pump_call df i rows Hi) as [n [Hn ->]].
    destruct (plot_by_pump_call df j rows' Hj) as [m [Hm ->]].
    apply filter_In in Hr. destruct Hr as [_ Hr]. apply String.eqb_eq in Hr.
    apply filter_In in Hr'. destruct Hr' as [_ Hr']. apply String.eqb_eq in Hr'.
    assert (E : n = m) by congruence. subst m.
    apply (proj1 (NoDup_nth_error (unique (map name df))) (unique_NoDup _)).
    + apply nth_error_Some. congruence.
    + congruence.
Qed.

(** Three death locations, two regions, two overlapping buffers. *)
Definition three_deaths : list death :=
  [mkDeath 0 3; mkDeath 1 2; mkDeath 2 1].

Definition in_buffers : list joined :=
  [ mkJoined (mkDeath 0 3) "Broad St Pump";
    mkJoined (mkDeath 1 2) "Broad St Pump";
    mkJoined (mkDeath 1 2) "Crown Chapel" ].

Definition in_voronoi : list joined :=
  [ mkJoined (mkDeath 0 3) "Broad St Pump";
    mkJoined (mkDeath 2 1) "Crown Chapel" ].

Lemma three_deaths_int64 (r : joined) :
  In r in_buffers \/ In r in_voronoi -> int64 (Count (left_row r)).
Proof.
  unfold int64. cbn.
  intros [H|H];
    repeat (destruct H as [<- | H]; [cbn; split; [discriminate | reflexivity]|]);
    destruct H.
Defined.

(** X9, run on the buffer join of the three deaths. *)
Lemma groupby_sum_groups_in_buffers :
  (forall r, In r in_buffers -> int64 (Count (left_row r))) /\
  groupby_sum in_buffers = [("Broad St Pump", 5); ("Crown Chapel", 2)] /\
  increasing (map fst (groupby_sum in_buffers)).
Proof.
  assert (H : forall r, In r in_buffers -> int64 (Count (left_row r)))
    by (intros r Hr; apply three_deaths_int64; now left).
  split; [exact H|]. split; [reflexivity|].
  exact (proj1 (groupby_sum_groups in_buffers H)).
Defined.

(** X10, run on the two joins of the three deaths. *)
Lemma compareSums_sum_three_deaths :
  (forall r, In r in_buffers -> int64 (Count (left_row r))) /\
  (forall r, In r in_voronoi -> int64 (Count (left_row r))) /\
  compareSums in_buffers in_voronoi
  = [("Broad St Pump", (5, 3)); ("Crown Chapel", (2, 1))] /\
  NoDup (map fst (compareSums in_buffers in_voronoi)).
Proof.
  assert (Hb : forall r, In r in_buffers -> int64 (Count (left_row r)))
    by (intros r Hr; apply three_deaths_int64; now left).
  assert (Hv : forall r, In r in_voronoi -> int64 (Count (left_row r)))
    by (intros r Hr; apply three_deaths_int64; now right).
  split; [exact Hb|]. split; [exact Hv|]. split; [reflexivity|].
  exact (proj1 (compareSums_sum in_buffers in_voronoi Hb Hv)).
Defined.

(** X11, run on the three deaths: the [voronoi] total is 4 of 6, the
    [buffers] total is 7. *)
Lemma voronoi_total_bounded_three_deaths :
  incl (map left_row in_voronoi) three_deaths /\
  NoDup (map (fun r => Id (left_row r)) in_voronoi) /\
  (forall d, In d three_deaths -> 0 <= Count d) /\
  exact_total (map Count three_deaths) < 2 ^ 63 /\
  (forall r, In r in_buffers -> int64 (Count (left_row r))) /\
  sums (compareSums in_buffers in_voronoi) = (7, 4) /\
  snd (sums (compareSums in_buffers in_voronoi)) <= deaths_total three_deaths.
Proof.
  assert (Hrows : incl (map left_row in_voronoi) three_deaths).
  { intros d Hd. cbn in Hd. cbn. tauto. }
  assert (Honce : NoDup (map (fun r => Id (left_row r)) in_voronoi)).
  { cbn. repeat constructor; cbn; intuition discriminate. }
  assert (Hcounts : forall d, In d three_deaths -> 0 <= Count d).
  { intros d Hd. cbn in Hd.
    repeat (destruct Hd as [<- | Hd]; [cbn; lia|]). destruct Hd. }
  assert (Hfits : exact_total (map Count three_deaths) < 2 ^ 63) by reflexivity.
  assert (Hb : forall r, In r in_buffers -> int64 (Count (left_row r)))
    by (intros r Hr; apply three_deaths_int64; now left).
  split; [exact Hrows|]. split; [exact Honce|]. split; [exact Hcounts|].
  split; [exact Hfits|]. split; [exact Hb|].
  split; [reflexivity|].
  exact (voronoi_total_bounded three_deaths in_buffers in_voronoi
           Hrows Honce Hcounts Hfits Hb).
Defined.

End Aggregation.

(** ** Every loop of the notebooks *)

Module EveryLoop.
Import Py Loops.

(** The collection a loop runs over. *)
Inductive collection : Type :=
(** the rows of the table read from [path], or one of its columns:
    [pumps.iterrows()], [pumps['geometry']], [pumps['buffer']],
    [pumps.geometry] *)
| Rows (path : string)
(** [pumpsGDF.iterrows()] in [countBuffersContaining] *)
| ArgumentRows
(** the list [contained] that the first loop of [countBuffersContaining]
    filled *)
| Contained
(** [range(len(deaths['Id']))] *)
| DeathIds
(** the axes of [plt.subplots(rows, cols)] *)
| Axes (rows cols : nat)
(** [zip(axes.flat, fList)] on [plt.subplots(2,2)] *)
| ZipKernels
(** [zip(axes.flat, bList)] on [plt.subplots(2,2)] *)
| ZipBandwidths
(** [enumerate(EQbins)] *)
| Bins
(** [enumerate(pumpNames)], with
    [pumpNames = list(deaths_within_voronoi['name'].unique())] *)
| PumpNames.

(** A [for] loop or a comprehension: the file and line of its header, and
    what it runs over. *)
Record loop : Type := mkLoop
  { file : string;
    line : nat;
    over : collection }.

Definition snow7_pumps : string := "../../data/csds/snow7/pumps.shp".
Definition dani_pumps : string := "../../data/dani/Pumps.shp".

(** The loops and comprehensions of the sources. *)
Definition loops : list loop :=
  [ mkLoop "README.md" 128 (Rows dani_pumps);
    mkLoop "code/python/Relations.ipynb" 464 (Rows snow7_pumps);
    mkLoop "code/python/Relations.ipynb" 484 (Rows snow7_pumps);
    mkLoop "code/python/Relations.ipynb" 655 (Rows snow7_pumps);
    mkLoop "code/python/Relations.ipynb" 676 (Rows snow7_pumps);
    mkLoop "code/python/Relations.ipynb" 703 (Rows snow7_pumps);
    mkLoop "code/python/Relations.ipynb" 732 ArgumentRows;
    mkLoop "code/python/Relations.ipynb" 744 Contained;
    mkLoop "code/python/Relations.ipynb" 907 (Rows snow7_pumps);
    mkLoop "unnamed/part_001" 133 DeathIds;
    mkLoop "unnamed/part_001" 344 (Axes 1 2);
    mkLoop "unnamed/part_001" 510 (Axes 1 2);
    mkLoop "unnamed/part_001" 814 PumpNames;
    mkLoop "unnamed/part_001" 1159 (Rows snow7_pumps);
    mkLoop "unnamed/part_001" 1328 (Rows snow7_pumps);
    mkLoop "unnamed/part_001" 1480 (Rows snow7_pumps);
    mkLoop "unnamed/part_001" 1741 Bins;
    mkLoop "unnamed/part_001" 1806 ZipKernels;
    mkLoop "unnamed/part_001" 1839 ZipBandwidths;
    mkLoop "unnamed/part_001" 1877 ZipKernels ].

Section Data.

(** What the loops run over: the pumps table read from each file, the
    [deaths] table, the Voronoi join, and the arguments of a call to
    [countBuffersContaining]. *)
Variables (Point Polygon Geom : Type).
Variable contains : Polygon -> Point -> bool.
Variable tables : string -> Relations.GeoDataFrame Point Polygon.
Variable deaths : Frame.DataFrame Geom.
Variable deaths_within_voronoi : list Aggregation.joined.
Variable pumpName : string.
Variable pumpsGDF : Relations.GeoDataFrame Point Polygon.

Definition pumpNames : list string :=
  Aggregation.unique (map Aggregation.name deaths_within_voronoi).

(** The number of iterations; [None] where the collection is never built,
    because the statement before the loop raised. *)
Definition size (c : collection) : option nat :=
  match c with
  | Rows path => Some (iterations (tables path))
  | ArgumentRows => Some (iterations pumpsGDF)
  | Contained =>
      option_map iterations
        (Relations.contained_loop Point Polygon contains
           (squeeze (map Relations.geometry
                         (Relations.select_name pumpName pumpsGDF)))
           pumpsGDF [])
  | DeathIds => option_map iterations (Frame.id_range deaths)
  | Axes rows cols => Some (iterations (axes_flat rows cols))
  | ZipKernels => Some (iterations (zip (axes_flat 2 2) fList))
  | ZipBandwidths => Some (iterations (zip (axes_flat 2 2) bList))
  | Bins => Some (iterations (Weights.enumerate Weights.EQbins))
  | PumpNames => Some (iterations (Weights.enumerate pumpNames))
  end.

Lemma unique_length (names : list string) :
  List.length (Aggregation.unique names) <= List.length names.
Proof.
  induction names as [|n rest IH]; [apply Nat.le_refl|].
  cbn [Aggregation.unique List.length].
  pose proof (filter_length_le (fun m => negb (String.eqb m n))
                (Aggregation.unique rest)). lia.
Qed.

Lemma enumerate_length {A : Type} (xs : list A) :
  List.length (Weights.enumerate xs) = List.length xs.
Proof.
  unfold Weights.enumerate. rewrite length_combine, length_seq. lia.
Qed.

Lemma pumpNames_length :
  List.length (Weights.enumerate pumpNames) <= List.length deaths_within_voronoi /\
  (forall path,
      incl (map Aggregation.name deaths_within_voronoi)
           (map Relations.name (tables path)) ->
      List.length (Weights.enumerate pumpNames) <= List.length (tables path)).
Proof.
  rewrite enumerate_length. unfold pumpNames. split.
  - rewrite <- (length_map Aggregation.name deaths_within_voronoi).
    apply unique_length.
  - intros path Hincl.
    rewrite <- (length_map Relations.name (tables path)).
    apply NoDup_incl_length; [apply Aggregation.unique_NoDup|].
    intros n Hn. apply Hincl. now apply Aggregation.unique_In.
Qed.

Lemma contained_length (p : Point) :
  exists contained,
    Relations.contained_loop Point Polygon contains (Scalar p) pumpsGDF []
    = Some contained /\
    List.length contained <= List.length pumpsGDF.
Proof.
  rewrite Relations.contained_loop_scalar. eexists. split; [reflexivity|].
  rewrite app_nil_l, length_map. apply filter_length_le.
Qed.

(** C8 (as amended).  Each of the twenty loops and comprehensions of the
    sources runs over the rows of a pumps table (once per row), over the
    names [countBuffersContaining] collected from the rows of its argument
    (at most one per row), over the distinct names of the Voronoi join (at
    most one per row of the join and, when they are names of the pumps
    table, at most one per pump), over a short list written in the source
    (6 bin edges, 4 kernel functions, 4 bandwidths, 2 axes), or, for the
    comprehension that renumbers [deaths['Id']], over
    [range(len(deaths['Id']))]: once per row of the [deaths] table.  So with
    pumps tables of at most 20 rows, and the names of the Voronoi join taken
    from the pumps table, every loop but that comprehension makes at most 20
    iterations. *)
Theorem every_loop_iterations :
  List.length loops = 20 /\
  (forall l, In l loops ->
     match over l with
     | Rows path => size (over l) = Some (List.length (tables path))
     | ArgumentRows => size (over l) = Some (List.length pumpsGDF)
     | Contained =>
         forall p,
           squeeze (map Relations.geometry
                        (Relations.select_name pumpName pumpsGDF)) = Scalar p ->
           exists n, size (over l) = Some n /\ n <= List.length pumpsGDF
     | DeathIds =>
         size (over l)
         = option_map (@List.length (Frame.value Geom)) (Frame.getitem deaths "Id")
     | Axes _ _ => size (over l) = Some 2
     | ZipKernels => size (over l) = Some 4
     | ZipBandwidths => size (over l) = Some 4
     | Bins => size (over l) = Some 6
     | PumpNames =>
         exists n,
           size (over l) = Some n /\
           n <= List.length deaths_within_voronoi /\
           (incl (map Aggregation.name deaths_within_voronoi)
                 (map Relations.name (tables snow7_pumps)) ->
            n <= List.length (tables snow7_pumps))
     end) /\
  ((forall path, List.length (tables path) <= 20) ->
   List.length pumpsGDF <= 20 ->
   incl (map Aggregation.name deaths_within_voronoi)
        (map Relations.name (tables snow7_pumps)) ->
   forall l n,
     In l loops -> over l <> DeathIds -> size (over l) = Some n -> n <= 20).
Proof.
  assert (Hall : forall l, In l loops ->
     match over l with
     | Rows path => size (over l) = Some (List.length (tables path))
     | ArgumentRows => size (over l) = Some (List.length pumpsGDF)
     | Contained =>
         forall p,
           squeeze (map Relations.geometry
                        (Relations.select_name pumpName pumpsGDF)) = Scalar p ->
           exists n, size (over l) = Some n /\ n <= List.length pumpsGDF
     | DeathIds =>
         size (over l)
         = option_map (@List.length (Frame.value Geom)) (Frame.getitem deaths "Id")
     | Axes _ _ => size (over l) = Some 2
     | ZipKernels => size (over l) = Some 4
     | ZipBandwidths => size (over l) = Some 4
     | Bins => size (over l) = Some 6
     | PumpNames =>
         exists n,
           size (over l) = Some n /\
           n <= List.length deaths_within_voronoi /\
           (incl (map Aggregation.name deaths_within_voronoi)
                 (map Relations.name (tables snow7_pumps)) ->
            n <= List.length (tables snow7_pumps))
     end).
  { intros l Hl. cbn [loops In] in Hl.
    repeat (destruct Hl as [<- | Hl]; [cbn [over size]; try reflexivity|]);
      try contradiction.
    - intros p Hp. rewrite Hp.
      destruct (contained_length p) as (contained & -> & Hle).
      exists (List.length contained). auto.
    - unfold Frame.id_range, iterations, range.
      destruct (Frame.getitem deaths "Id"); cbn [option_map]; [|reflexivity].
      now rewrite length_seq.
    - exists (List.length (Weights.enumerate pumpNames)).
      split; [reflexivity|]. destruct pumpNames_length as [H1 H2].
      split; [exact H1 | apply H2]. }
  split; [reflexivity|]. split; [exact Hall|].
  intros Htables Harg Hnames l n Hl Hother Hsize.
  specialize (Hall l Hl).
  destruct (over l) as [path| | | |rows cols| | | |].
  - rewrite Hall in Hsize. injection Hsize as <-. apply Htables.
  - rewrite Hall in Hsize. injection Hsize as <-. exact Harg.
  - cbn [size] in Hsize.
    destruct (squeeze (map Relations.geometry
                           (Relations.select_name pumpName pumpsGDF)))
      as [p|series] eqn:Hp.
    + destruct (Hall p eq_refl) as (m & Hm & Hle).
      cbn [size] in Hm. rewrite Hp in Hm. rewrite Hm in Hsize.
      injection Hsize as <-. lia.
    + destruct pumpsGDF; cbn in Hsize; [|discriminate].
      injection Hsize as <-. cbn. lia.
  - congruence.
  - rewrite Hall in Hsize. injection Hsize as <-. lia.
  - rewrite Hall in Hsize. injection Hsize as <-. lia.
  - rewrite Hall in Hsize. injection Hsize as <-. lia.
  - rewrite Hall in Hsize. injection Hsize as <-. lia.
  - destruct Hall as (m & Hm & _ & Hle). rewrite Hm in Hsize.
    injection Hsize as <-. specialize (Hle Hnames).
    specialize (Htables snow7_pumps). lia.
Qed.

End Data.

Arguments size {Point Polygon Geom} contains tables deaths
  deaths_within_voronoi pumpName pumpsGDF c.

(** C8, run: the loops on the five pumps of [Relations.Example.soho], the 250
    rows of [deaths250] and a Voronoi join of three deaths on two pumps, with
    [countBuffersContaining('Marlborough Mews Pump', pumps)]. *)
Definition soho_join : list Aggregation.joined :=
  [ Aggregation.mkJoined (Aggregation.mkDeath 0 3) "Broad St Pump";
    Aggregation.mkJoined (Aggregation.mkDeath 1 2) "Rupert St Pump";
    Aggregation.mkJoined (Aggregation.mkDeath 2 1) "Broad St Pump" ].

Lemma every_loop_iterations_soho :
  map (fun l => size Relations.Example.disc_contains
                     (fun _ => Relations.Example.soho) deaths250 soho_join
                     "Marlborough Mews Pump" Relations.Example.soho (over l))
      loops
  = [ Some 5; Some 5; Some 5; Some 5; Some 5; Some 5; Some 5; Some 3; Some 5;
      Some 250; Some 2; Some 2; Some 2; Some 5; Some 5; Some 5; Some 6;
      Some 4; Some 4; Some 4 ] /\
  List.length loops = 20.
Proof.
  split; [vm_compute; reflexivity|].
  exact (proj1 (every_loop_iterations Relations.Example.point
                  Relations.Example.disc Frame.Sample.shape
                  Relations.Example.disc_contains
                  (fun _ => Relations.Example.soho) deaths250 soho_join
                  "Marlborough Mews Pump" Relations.Example.soho)).
Defined.

End EveryLoop.

(** ** SpatialWeights.ipynb: what [plotKernel] leaves out *)

Module KernelPlot.
Import Py Weights.

Local Open Scope Q_scope.

Lemma index_first (ids : list string) (focal : string) (k : nat) :
  index ids focal = Some k ->
  nth_error ids k = Some focal /\
  forall j, (j < k)%nat -> nth_error ids j <> Some focal.
Proof.
  revert k. induction ids as [|i rest IH]; simpl; intros k; [discriminate|].
  destruct (String.eqb_spec i focal) as [->|Hne].
  - intros [= <-]. split; [reflexivity|]. intros j Hj. lia.
  - destruct (index rest focal) as [k'|]; [|discriminate].
    intros [= <-]. destruct (IH k' eq_refl) as [Hk Hbefore].
    split; [exact Hk|].
    intros [|j] Hj; simpl; [congruence|]. apply Hbefore. lia.
Qed.

Lemma index_None (ids : list string) (focal : string) :
  index ids focal = None <-> ~ In focal ids.
Proof.
  induction ids as [|i rest IH]; simpl; [tauto|].
  destruct (String.eqb_spec i focal) as [->|Hne].
  - split; [discriminate | tauto].
  - destruct (index rest focal) as [k'|]; simpl.
    + split; [discriminate|]. intros H. exfalso.
      assert (Hin : In focal rest).
      { destruct (in_dec string_dec focal rest) as [Hin|Hout]; [exact Hin|].
        apply IH in Hout. discriminate. }
      tauto.
    + split; [|reflexivity]. intros _ [H|H]; [congruence|].
      now apply (proj1 IH).
Qed.

(** X13.  the weights [plotKernel] gives no bin, and so no colour, are exactly
    NaN and the numbers outside (0, 1]: zero, every negative weight and every
    weight above 1. *)
Theorem bin_of_none (w : float) :
  bin_of w = None <->
  match w with
  | NaN => True
  | Fin q => q <= 0 \/ 1 < q
  end.
Proof.
  destruct w as [|q]; [split; [trivial | reflexivity]|].
  destruct (Qlt_le_dec 0 q) as [Hpos|Hneg].
  - destruct (Qlt_le_dec 1 q) as [Hbig|Hone].
    + split; [now right|]. intros _.
      unfold bin_of, zero_to_nan. rewrite (Qeq_bool_false q Hpos).
      unfold cut_one. cbn [map number EQbins searchsorted_left].
      settle_edges. reflexivity.
    + destruct (bin_of_weight q (conj Hpos Hone)) as (b & _ & _ & Hb & _).
      rewrite Hb. split; [discriminate | lra].
  - split; [now left|]. intros _.
    unfold bin_of, zero_to_nan.
    destruct (Qeq_bool q 0) eqn:E; [reflexivity|].
    unfold cut_one. cbn [map number EQbins searchsorted_left].
    settle_edges. reflexivity.
Qed.

(** X14.  [plotKernel] fails exactly when the focal name is not among the ids
    of the weights, or the matrix has no row at the position of the name;
    when it succeeds it bins the row at the first position at which the name
    occurs among the ids, so of two rows with the same id the second is never
    plotted. *)
Theorem plotKernel_cats_focal (full_matrix : list (list float))
    (ids : list string) (focal : string) :
  (plotKernel_cats full_matrix ids focal = None <->
   ~ In focal ids \/
   exists k, index ids focal = Some k /\ (List.length full_matrix <= k)%nat)
  /\ (forall cats,
         plotKernel_cats full_matrix ids focal = Some cats ->
         exists k row,
           nth_error ids k = Some focal /\
           (forall j, (j < k)%nat -> nth_error ids j <> Some focal) /\
           nth_error full_matrix k = Some row /\
           cats = map bin_of row).
Proof.
  split.
  - unfold plotKernel_cats.
    destruct (index ids focal) as [k|] eqn:Hk.
    + rewrite nth_error_map.
      destruct (nth_error full_matrix k) as [row|] eqn:Hrow; cbn [option_map].
      * split; [discriminate|].
        intros [Hout | (k' & [= <-] & Hlen)].
        -- apply index_None in Hout. congruence.
        -- apply nth_error_None in Hlen. congruence.
      * split; [|reflexivity]. intros _. right. exists k.
        split; [reflexivity | now apply nth_error_None].
    + split; [|reflexivity]. intros _. left. now apply index_None.
  - intros cats H.
    destruct (plotKernel_cats_row _ _ _ _ H) as (k & row & Hk & Hrow & ->).
    destruct (index_first _ _ _ Hk) as [Hat Hbefore].
    exists k, row. auto.
Qed.

End KernelPlot.

(** ** SpatialJoins.ipynb: the CRSs of the joins, whatever the files carry *)

Module NotebookDisk.
Import Notebook.

Lemma crs_eqb_sym (a b : crs) : crs_eqb a b = crs_eqb b a.
Proof.
  destruct a as [x|], b as [y|]; simpl; try reflexivity. apply Z.eqb_sym.
Qed.

(** X15.  whatever CRS the three shapefiles carry, [SpatialJoins.ipynb] runs
    through and makes its nine joins, and at least one of them compares two
    different CRSs: the two joins against [regions_df] cannot both be on equal
    CRSs, as the first needs [deaths] without CRS and the second needs it in
    EPSG:27700.  The first join against [regions_df] is the only mismatch
    exactly when [deaths] and [pumps] are both in EPSG:27700. *)
Theorem SpatialJoins_on_any_disk (disk : string -> crs) :
  exists joins,
    run disk SpatialJoins [] = Some joins /\
    List.length joins = 9 /\
    In (mkComparison 61 Within (disk "../../data/dani/Cholera_Deaths.shp") None)
       joins /\
    In (mkComparison 73 Within (disk "../../data/dani/Cholera_Deaths.shp")
          (Some 27700%Z)) joins /\
    mismatched joins <> [] /\
    (mismatched joins
     = [mkComparison 61 Within (disk "../../data/dani/Cholera_Deaths.shp") None]
     <-> disk "../../data/dani/Cholera_Deaths.shp" = Some 27700%Z /\
         disk "../../data/csds/snow7/pumps.shp" = Some 27700%Z).
Proof.
  eexists. split; [cbn; reflexivity|]. split; [reflexivity|].
  generalize (disk "../../data/dani/Cholera_Deaths.shp") as dd.
  generalize (disk "../../data/csds/snow7/pumps.shp") as dp.
  intros dp dd.
  split; [cbn; tauto|]. split; [cbn; tauto|].
  unfold mismatched. cbn [filter left_crs right_crs].
  rewrite (crs_eqb_sym dp dd).
  destruct (crs_eqb dd dp) eqn:Epd, (crs_eqb dd None) eqn:En,
           (crs_eqb dd (Some 27700%Z)) eqn:Eg; cbn [negb];
    try (apply crs_eqb_eq in En; apply crs_eqb_eq in Eg; congruence);
    (split; [discriminate|]);
    (split;
     [ try discriminate; intros _
     | intros [Hd Hp]; subst dd dp; try discriminate ]).
  all: try (apply crs_eqb_eq in Epd; apply crs_eqb_eq in Eg; split; congruence).
  all: try reflexivity.
  all: try (cbn in Epd; discriminate).
Qed.

End NotebookDisk.

(** ** Operations.ipynb: the buffers that are united and subtracted *)

Module Operations.
Import Py Relations.

Section Overlay.

Variables (Point Polygon : Type).

(** [bufA=pumps[pumps['name']=='Broad St Pump']['buffer'].squeeze()] *)
Definition bufA (pumps : GeoDataFrame Point Polygon) : squeezed Polygon :=
  squeeze (map buffer (select_name "Broad St Pump" pumps)).

(** [pumps['buffer'].tolist()], which [unionBuffs] unites. *)
Definition AllBuffs (pumps : GeoDataFrame Point Polygon) : list Polygon :=
  map buffer pumps.

(** [OtherBuffs = pumps[pumps['name']!='Broad St Pump']['buffer'].tolist()],
    which [unionOtherBuffs] unites and [AdiffuOB] subtracts from [bufA]. *)
Definition OtherBuffs (pumps : GeoDataFrame Point Polygon) : list Polygon :=
  map buffer
      (filter (fun r => negb (String.eqb (name r) "Broad St Pump")) pumps).

Lemma others_all (n : string) (pumps : GeoDataFrame Point Polygon) :
  select_name n pumps = [] ->
  filter (fun r => negb (String.eqb (name r) n)) pumps = pumps.
Proof.
  unfold select_name. induction pumps as [|r rest IH]; [reflexivity|].
  cbn [filter]. destruct (String.eqb (name r) n); [discriminate|].
  intros H. cbn [negb]. now rewrite IH.
Qed.

Lemma one_row_apart (n : string) (pumps : GeoDataFrame Point Polygon)
    (row : pump Point Polygon) :
  select_name n pumps = [row] ->
  exists before after,
    pumps = before ++ row :: after /\
    filter (fun r => negb (String.eqb (name r) n)) pumps = before ++ after.
Proof.
  unfold select_name. induction pumps as [|r rest IH]; [discriminate|].
  cbn [filter]. destruct (String.eqb (name r) n) eqn:E; cbn [negb].
  - intros [= -> Hrest]. exists [], rest. split; [reflexivity|].
    cbn [List.app]. now apply others_all.
  - intros Hsel. destruct (IH Hsel) as (before & after & Hpumps & Hothers).
    exists (r :: before), after. cbn [List.app].
    now rewrite <- Hpumps, Hothers.
Qed.

(** X16.  For a frame that names [Broad St Pump] once, [bufA] is the buffer
    of that row, and [OtherBuffs] is the [buffer] column without that one
    entry, the other entries in their order: the buffers of the rows with
    another name, one fewer than the frame has rows. *)
Theorem OtherBuffs_complement (pumps : GeoDataFrame Point Polygon) :
  count_occ string_dec (map name pumps) "Broad St Pump" = 1 ->
  exists row before after,
    In row pumps /\ name row = "Broad St Pump" /\
    bufA pumps = Scalar (buffer row) /\
    AllBuffs pumps = before ++ buffer row :: after /\
    OtherBuffs pumps = before ++ after /\
    S (List.length (OtherBuffs pumps)) = List.length pumps /\
    (forall g, In g (OtherBuffs pumps) <->
               exists r, In r pumps /\ name r <> "Broad St Pump" /\ buffer r = g).
Proof.
  intros Honce. rewrite <- select_name_length in Honce.
  destruct (select_name "Broad St Pump" pumps) as [|row [|row' rest]] eqn:Hsel;
    try discriminate. clear Honce.
  assert (Hrow : In row pumps /\ name row = "Broad St Pump").
  { apply (select_name_spec Point Polygon "Broad St Pump" pumps row).
    rewrite Hsel. now left. }
  destruct (one_row_apart _ _ _ Hsel) as (before & after & Hpumps & Hothers).
  exists row, (map buffer before), (map buffer after).
  split; [tauto|]. split; [tauto|].
  split; [unfold bufA; now rewrite Hsel|].
  split; [unfold AllBuffs; rewrite Hpumps at 1; now rewrite map_app|].
  split; [unfold OtherBuffs; now rewrite Hothers, map_app|].
  split.
  - unfold OtherBuffs. rewrite Hothers, length_map. rewrite Hpumps at 1.
    rewrite !length_app. cbn [List.length]. lia.
  - intros g. unfold OtherBuffs. rewrite in_map_iff. split.
    + intros (r & <- & Hr). apply filter_In in Hr. destruct Hr as [Hin Hname].
      exists r. split; [exact Hin|]. split; [|reflexivity].
      now apply String.eqb_neq, negb_true_iff.
    + intros (r & Hin & Hname & <-). exists r. split; [reflexivity|].
      apply filter_In. split; [exact Hin|].
      now apply negb_true_iff, String.eqb_neq.
Qed.

End Overlay.

Arguments bufA {Point Polygon} pumps.
Arguments AllBuffs {Point Polygon} pumps.
Arguments OtherBuffs {Point Polygon} pumps.

(** X16, run on [Example.soho]. *)
Lemma OtherBuffs_complement_soho :
  count_occ string_dec (map name Example.soho) "Broad St Pump" = 1 /\
  OtherBuffs Example.soho
  = [ ((529593, 180661), 200); ((529193, 181163), 200);
      ((529164, 180860), 200); ((529300, 181200), 200) ]%Z /\
  exists row before after,
    In row Example.soho /\ name row = "Broad St Pump" /\
    bufA Example.soho = Scalar (buffer row) /\
    AllBuffs Example.soho = before ++ buffer row :: after /\
    OtherBuffs Example.soho = before ++ after /\
    S (List.length (OtherBuffs Example.soho)) = List.length Example.soho /\
    (forall g, In g (OtherBuffs Example.soho) <->
               exists r, In r Example.soho /\ name r <> "Broad St Pump" /\
                         buffer r = g).
Proof.
  assert (Honce : count_occ string_dec (map name Example.soho) "Broad St Pump" = 1)
    by reflexivity.
  split; [exact Honce|]. split; [reflexivity|].
  exact (OtherBuffs_complement Example.point Example.disc Example.soho Honce).
Defined.

End Operations.
